(** * Newton optimisation notebook: a shallow embedding and its properties

    The notebook [NewtonOptimization.ipynb] fits the three parameters of
    [y = A sin (W t + Z)] with a Newton-like loop written on top of numpy.
    This development embeds its five functions ([func], [funcDeriv],
    [lossFunction], [lossFunctionGradient], [newtonMethod]) and the numpy
    operations they call.

    Numbers.  The notebook computes with numpy's [float64]; here a scalar is
    a real number ([R]), i.e. every arithmetic operation is taken exact.
    A 1-D numpy array is a [list R], a 2-D array is the list of its rows.
    The functions are embedded for arrays of any length, as they are
    written.

    Inversion.  [Np.inv] is [np.linalg.inv] in exact arithmetic: it raises
    exactly where the determinant is zero.  The outer product of a
    gradient of three entries is singular ([inv_outer_3] below), so with
    [Np.inv] a turn on three parameters never gets past the inversion,
    whereas rounding can let [float64] elimination run through.  At the
    zero matrix both raise.  For what the loop does after an inversion
    that returns, the loop is also given with the inversion routine as a
    parameter ([newtonMethod_with]); statements about such turns are
    proved for every routine.

    Effects.  A Python call either returns or raises; [result] records
    which.  The loop of [newtonMethod] is run in a small writer-and-error
    monad [M] whose log lists the gradient evaluations, the matrix
    inversions and the [break], in the order in which they happen. *)

From Stdlib Require Import Reals Lra Lia List ZArith Bool PeanoNat.
Import ListNotations.

Open Scope R_scope.

(** ** Python exceptions and results *)

Module Py.

(** [numpy.linalg.LinAlgError] carries one of two messages here. *)
Inductive linalg_failure : Type :=
| SingularMatrix      (* "Singular matrix" *)
| NotSquare.          (* "Last 2 dimensions of the array must be square" *)

Inductive exn : Type :=
| ValueError                               (* unpacking, broadcasting, shapes *)
| LinAlgError (why : linalg_failure).

Inductive result (A : Type) : Type :=
| Ok (a : A)
| Raise (e : exn).

Arguments Ok {A} a.
Arguments Raise {A} e.

Definition rbind {A B : Type} (r : result A) (f : A -> result B) : result B :=
  match r with
  | Ok a => f a
  | Raise e => Raise e
  end.

End Py.

Import Py.

Notation "x <-? r ;; k" := (rbind r (fun x => k))
  (at level 61, r at next level, right associativity).

(** ** The numpy operations the notebook uses *)

Module Np.

Definition array := list R.
Definition matrix := list array.

Fixpoint zipWith (f : R -> R -> R) (a b : array) : array :=
  match a, b with
  | x :: a', y :: b' => f x y :: zipWith f a' b'
  | _, _ => []
  end.

(** Binary operator between two 1-D arrays: equal lengths go element by
    element, an array of length one is stretched over the other, any other
    pair of shapes raises [ValueError] (operands could not be broadcast). *)
Definition broadcast2 (f : R -> R -> R) (a b : array) : result array :=
  if Nat.eqb (length a) (length b) then Ok (zipWith f a b)
  else if Nat.eqb (length a) 1 then Ok (map (fun y => f (hd 0 a) y) b)
  else if Nat.eqb (length b) 1 then Ok (map (fun x => f x (hd 0 b)) a)
  else Raise ValueError.

Definition sub : array -> array -> result array := broadcast2 Rminus.

(** scalar-with-array operators *)
Definition smul (c : R) (a : array) : array := map (fun x => c * x) a.
Definition sadd (a : array) (c : R) : array := map (fun x => x + c) a.

Definition sin (a : array) : array := map Rtrigo_def.sin a.
Definition cos (a : array) : array := map Rtrigo_def.cos a.

(** [a ** 2] *)
Definition square (a : array) : array := map (fun x => x ^ 2) a.

(** [np.sum] *)
Definition sum (a : array) : R := fold_right Rplus 0 a.

(** inner product of two 1-D arrays *)
Definition dotp (a b : array) : R := sum (zipWith Rmult a b).

(** [np.dot(m, v)] for a 2-D [m] and a 1-D [v]: the shapes must be
    aligned, i.e. every row of [m] is as long as [v]. *)
Definition dot_mv (m : matrix) (v : array) : result array :=
  if forallb (fun row => Nat.eqb (length row) (length v)) m
  then Ok (map (fun row => dotp row v) m)
  else Raise ValueError.

(** [a.reshape(-1, 1)] of a 1-D array: a column. *)
Definition reshape_col (a : array) : matrix := map (fun x => [x]) a.

(** [m.T] of a matrix with [ncols] columns. *)
Fixpoint transpose_n (ncols : nat) (m : matrix) : matrix :=
  match ncols with
  | O => []
  | S k => map (hd 0) m :: transpose_n k (map (@tl R) m)
  end.

Definition transpose (m : matrix) : matrix :=
  transpose_n (length (hd [] m)) m.

(** [np.dot(a, b)] for two 2-D arrays whose shapes are aligned (the two
    products of [newtonMethod] are: column by row, square by column). *)
Definition dot (a b : matrix) : matrix :=
  map (fun row => map (fun col => dotp row col) (transpose b)) a.

(** [m.flatten()] *)
Definition flatten (m : matrix) : array := concat m.

(** [np.linalg.norm] of a 1-D array: the Euclidean norm. *)
Definition norm (a : array) : R := sqrt (sum (square a)).

(** *** [np.linalg.inv]

    numpy hands the matrix to LAPACK, which raises "Singular matrix"
    when elimination meets a pivot that is exactly zero.  In exact
    arithmetic that happens exactly when the determinant is zero, and
    otherwise the result is the inverse: the adjugate over the
    determinant.  This is the exact reading of the routine; where
    [float64] rounding decides whether a pivot is zero, the loop with an
    arbitrary routine ([newtonMethod_with]) is the one to use. *)

Fixpoint drop_nth {A : Type} (n : nat) (l : list A) : list A :=
  match l with
  | [] => []
  | x :: l' =>
      match n with
      | O => l'
      | S k => x :: drop_nth k l'
      end
  end.

Definition minor (i j : nat) (m : matrix) : matrix :=
  map (drop_nth j) (drop_nth i m).

Definition sign (k : nat) : R := (-1) ^ k.

(** Determinant of an [n] by [n] matrix, expanded along its first row. *)
Fixpoint det_n (n : nat) (m : matrix) : R :=
  match n with
  | O => 1
  | S k =>
      sum (map (fun j => sign j * nth j (hd [] m) 0 * det_n k (minor 0 j m))
               (seq 0 (S k)))
  end.

Definition det (m : matrix) : R := det_n (length m) m.

Definition is_square (m : matrix) : bool :=
  forallb (fun row => Nat.eqb (length row) (length m)) m.

Definition adjugate (m : matrix) : matrix :=
  let n := length m in
  map (fun i => map (fun j => sign (i + j) * det (minor j i m)) (seq 0 n))
      (seq 0 n).

Definition inv (m : matrix) : result matrix :=
  if is_square m then
    if Req_dec_T (det m) 0 then Raise (LinAlgError SingularMatrix)
    else Ok (map (fun row => map (fun x => x / det m) row) (adjugate m))
  else Raise (LinAlgError NotSquare).

End Np.

(** ** The effect monad of the optimisation loop *)

Module Run.

(** What the loop does that a caller could count. *)
Inductive event : Type :=
| GradEval (params : Np.array)      (* a call of [lossFunctionGradient] *)
| Inversion (m : Np.matrix)         (* a call of [np.linalg.inv] *)
| Break.                            (* the [break] of the convergence test *)

Definition M (A : Type) : Type := (list event * result A)%type.

Definition ret {A : Type} (a : A) : M A := ([], Ok a).

Definition bind {A B : Type} (m : M A) (f : A -> M B) : M B :=
  match m with
  | (tr, Ok a) => (tr ++ fst (f a), snd (f a))
  | (tr, Raise e) => (tr, Raise e)
  end.

Definition emit (e : event) : M unit := ([e], Ok tt).

Definition lift {A : Type} (r : result A) : M A := ([], r).

Definition is_grad_eval (e : event) : bool :=
  match e with GradEval _ => true | _ => false end.
Definition is_inversion (e : event) : bool :=
  match e with Inversion _ => true | _ => false end.
Definition is_break (e : event) : bool :=
  match e with Break => true | _ => false end.

Definition grad_evals (tr : list event) : nat := length (filter is_grad_eval tr).
Definition inversions (tr : list event) : nat := length (filter is_inversion tr).
Definition breaks (tr : list event) : nat := length (filter is_break tr).

End Run.

Import Run.

Notation "x <- m ;; k" := (bind m (fun x => k))
  (at level 61, m at next level, right associativity).
Notation "m ;;; k" := (bind m (fun _ => k))
  (at level 61, right associativity).

(** ** The notebook *)

(** [func(t, params)]: [A, W, Z = params] needs exactly three values. *)
Definition func (t : Np.array) (params : Np.array) : result Np.array :=
  match params with
  | [A; W; Z] => Ok (Np.smul A (Np.sin (Np.sadd (Np.smul W t) Z)))
  | _ => Raise ValueError
  end.

(** [funcDeriv(t, params)]: the three rows [dA], [dW], [dZ].  The product
    [A * t * np.cos(...)] multiplies two arrays of the length of [t]. *)
Definition funcDeriv (t : Np.array) (params : Np.array) : result Np.matrix :=
  match params with
  | [A; W; Z] =>
      let dA := Np.sin (Np.sadd (Np.smul W t) Z) in
      let dW := Np.zipWith Rmult (Np.smul A t) (Np.cos (Np.sadd (Np.smul W t) Z)) in
      let dZ := Np.smul A (Np.cos (Np.sadd (Np.smul W t) Z)) in
      Ok [dA; dW; dZ]
  | _ => Raise ValueError
  end.

Section Data.

(** The notebook's globals. *)
Variables t_data y_data : Np.array.

Definition lossFunction (params : Np.array) : result R :=
  pred <-? func t_data params ;;
  diff <-? Np.sub y_data pred ;;
  Ok (Np.sum (Np.square diff) / INR (length y_data)).

Definition lossFunctionGradient (params : Np.array) : result Np.array :=
  pred <-? func t_data params ;;
  error <-? Np.sub y_data pred ;;
  deriv <-? funcDeriv t_data params ;;
  prod <-? Np.dot_mv deriv error ;;
  let grad := Np.smul (-2) prod in
  Ok grad.

End Data.

(** The body of the loop up to [params_new]. *)
Definition newton_update (lossFunctionGradient : Np.array -> result Np.array)
    (params : Np.array) : M Np.array :=
  grad <- (emit (GradEval params) ;;; lift (lossFunctionGradient params)) ;;
  let grad := Np.reshape_col grad in
  let outer := Np.dot grad (Np.transpose grad) in
  hinv <- (emit (Inversion outer) ;;; lift (Np.inv outer)) ;;
  lift (Np.sub params (Np.flatten (Np.dot hinv grad))).

(** [for _ in range(n)] with its [break]; what is returned after the loop
    is the variable [params]. *)
Fixpoint newton_loop (lossFunctionGradient : Np.array -> result Np.array)
    (tol : R) (n : nat) (params : Np.array) : M Np.array :=
  match n with
  | O => ret params
  | S k =>
      params_new <- newton_update lossFunctionGradient params ;;
      diff <- lift (Np.sub params_new params) ;;
      if Rlt_dec (Np.norm diff) tol
      then emit Break ;;; ret params
      else newton_loop lossFunctionGradient tol k params_new
  end.

(** [range(max_iter)] is empty for [max_iter <= 0]. *)
Definition newtonMethod {F L : Type} (func : F) (lostFunction : L)
    (lossFunctionGradient : Np.array -> result Np.array)
    (params_initial : Np.array) (max_iter : Z) (tol : R) : M Np.array :=
  newton_loop lossFunctionGradient tol (Z.to_nat max_iter) params_initial.

Definition default_max_iter : Z := 100.
Definition default_tol : R := 1 / 10 ^ 6.

(** ** Names for the pieces of one update *)

Definition outer_of (grad : Np.array) : Np.matrix :=
  Np.dot (Np.reshape_col grad) (Np.transpose (Np.reshape_col grad)).

Definition step_of (hinv : Np.matrix) (grad : Np.array) : Np.array :=
  Np.flatten (Np.dot hinv (Np.reshape_col grad)).

(** [params_new] of one turn of the loop started at [p], without the log. *)
Definition params_new_of (g : Np.array -> result Np.array) (p : Np.array)
  : result Np.array :=
  snd (newton_update g p).

(** The vector computed on the [k]-th turn of a loop that no earlier turn
    has left; the 0-th one is the initial vector. *)
Fixpoint iterate (g : Np.array -> result Np.array) (k : nat) (p0 : Np.array)
  : result Np.array :=
  match k with
  | O => Ok p0
  | S k' => p <-? iterate g k' p0 ;; params_new_of g p
  end.

(** Turn [k] (counted from 0) computes [p'] from [p] and its convergence
    test fails: the loop goes on. *)
Definition continues_at (g : Np.array -> result Np.array) (tol : R)
    (p0 : Np.array) (k : nat) : Prop :=
  exists p p' d,
    iterate g k p0 = Ok p /\ params_new_of g p = Ok p' /\
    Np.sub p' p = Ok d /\ ~ Np.norm d < tol.

(** Turn [k] is the first one whose convergence test succeeds; [p] is
    [current_params] and [p'] is [new_params] of that turn. *)
Definition converges_at (g : Np.array -> result Np.array) (tol : R)
    (p0 : Np.array) (k : nat) (p p' : Np.array) : Prop :=
  (forall j, (j < k)%nat -> continues_at g tol p0 j) /\
  iterate g k p0 = Ok p /\ params_new_of g p = Ok p' /\
  exists d, Np.sub p' p = Ok d /\ Np.norm d < tol.

(** ** The formulas of the specification *)

(** [Sigma n f] is the sum of [f 0], ..., [f (n - 1)]. *)
Definition Sigma (n : nat) (f : nat -> R) : R := Np.sum (map f (seq 0 n)).

(** The forward model at one point. *)
Definition prediction (A W Z t : R) : R := A * sin (W * t + Z).

(** The residual [y_i - yhat_i]. *)
Definition residual (t y : Np.array) (A W Z : R) (i : nat) : R :=
  nth i y 0 - prediction A W Z (nth i t 0).

(** [MSE = (1/n) * sum (y_i - yhat_i)^2] *)
Definition mse_spec (t y : Np.array) (A W Z : R) : R :=
  1 / INR (length y) * Sigma (length y) (fun i => (residual t y A W Z i) ^ 2).

(** The entries of the 3 by n matrix of partial derivatives. *)
Definition D_spec (t : Np.array) (A W Z : R) (row i : nat) : R :=
  match row with
  | 0%nat => sin (W * nth i t 0 + Z)
  | 1%nat => A * nth i t 0 * cos (W * nth i t 0 + Z)
  | _ => A * cos (W * nth i t 0 + Z)
  end.

(** [-2 * D . e], one entry per row of [D]. *)
Definition gradient_spec (t y : Np.array) (A W Z : R) : Np.array :=
  map (fun row =>
         -2 * Sigma (length y) (fun i => D_spec t A W Z row i * residual t y A W Z i))
      [0%nat; 1%nat; 2%nat].

(** [m . v] written with rows. *)
Definition mat_vec (m : Np.matrix) (v : Np.array) : Np.array :=
  map (fun row => Np.dotp row v) m.

(** The identity matrix. *)
Definition identity (n : nat) : Np.matrix :=
  map (fun i => map (fun j => if Nat.eqb i j then 1 else 0) (seq 0 n)) (seq 0 n).

(** The outer product [g . g^T], entry by entry. *)
Definition outer_spec (grad : Np.array) : Np.matrix :=
  map (fun gi => map (fun gj => gi * gj) grad) grad.

Definition zero_matrix_3 : Np.matrix := [[0; 0; 0]; [0; 0; 0]; [0; 0; 0]].

(** ** The data of the notebook's run *)

(** [np.linspace(a, b, n)] for [n >= 2]. *)
Definition linspace (a b : R) (n : nat) : Np.array :=
  map (fun i => a + INR i * ((b - a) / INR (n - 1))) (seq 0 n).

Definition notebook_t_data : Np.array := linspace 0 (3 * PI) 100.

(** The parameters from which the notebook generates its data. *)
Definition true_params : Np.array := [3; 2; PI / 6].

(** [y_data = func(t_data, [3, 2, np.pi/6])], the value that call returns. *)
Definition notebook_y_data : Np.array :=
  Np.smul 3 (Np.sin (Np.sadd (Np.smul 2 notebook_t_data) (PI / 6))).

(** ** Reading a result as a number *)

(** The value a call returned, and [d] where it raised. *)
Definition value_or {A : Type} (d : A) (r : result A) : A :=
  match r with
  | Ok a => a
  | Raise _ => d
  end.

(** The [i]-th prediction [func(t, params)[i]] as a function of [params]. *)
Definition model_at (t : Np.array) (i : nat) (params : Np.array) : R :=
  nth i (value_or [] (func t params)) 0.

(** The loss as a function of [params]. *)
Definition loss_at (t y : Np.array) (params : Np.array) : R :=
  value_or 0 (lossFunction t y params).

(** The vectors at which a log says the gradient was evaluated. *)
Definition grad_points (tr : list event) : list Np.array :=
  flat_map (fun e => match e with GradEval p => [p] | _ => [] end) tr.

(** ** The loop with the inversion routine as a parameter

    [np.linalg.inv] is LAPACK code working in [float64].  On a matrix that
    is singular in exact arithmetic but whose elimination, through
    rounding, meets no pivot that is exactly zero, it returns a matrix;
    [Np.inv] raises there.  The outer product of a gradient of three
    numbers is such a matrix.  What the loop does with the outcome of the
    inversion does not depend on how that outcome is computed, so the loop
    is written once more with the routine as a parameter [inv];
    [newtonMethod] is the case [inv = Np.inv]. *)

Definition inversion : Type := Np.matrix -> result Np.matrix.

Definition newton_update_with (inv : inversion)
    (lossFunctionGradient : Np.array -> result Np.array)
    (params : Np.array) : M Np.array :=
  grad <- (emit (GradEval params) ;;; lift (lossFunctionGradient params)) ;;
  let grad := Np.reshape_col grad in
  let outer := Np.dot grad (Np.transpose grad) in
  hinv <- (emit (Inversion outer) ;;; lift (inv outer)) ;;
  lift (Np.sub params (Np.flatten (Np.dot hinv grad))).

Fixpoint newton_loop_with (inv : inversion)
    (lossFunctionGradient : Np.array -> result Np.array)
    (tol : R) (n : nat) (params : Np.array) : M Np.array :=
  match n with
  | O => ret params
  | S k =>
      params_new <- newton_update_with inv lossFunctionGradient params ;;
      diff <- lift (Np.sub params_new params) ;;
      if Rlt_dec (Np.norm diff) tol
      then emit Break ;;; ret params
      else newton_loop_with inv lossFunctionGradient tol k params_new
  end.

Definition newtonMethod_with (inv : inversion) {F L : Type} (func : F)
    (lostFunction : L) (lossFunctionGradient : Np.array -> result Np.array)
    (params_initial : Np.array) (max_iter : Z) (tol : R) : M Np.array :=
  newton_loop_with inv lossFunctionGradient tol (Z.to_nat max_iter)
    params_initial.

(** [params_new] of one turn, the iterates, and the two outcomes of the
    convergence test, for the loop with [inv]. *)
Definition params_new_of_with (inv : inversion)
    (g : Np.array -> result Np.array) (p : Np.array) : result Np.array :=
  snd (newton_update_with inv g p).

Fixpoint iterate_with (inv : inversion) (g : Np.array -> result Np.array)
    (k : nat) (p0 : Np.array) : result Np.array :=
  match k with
  | O => Ok p0
  | S k' => p <-? iterate_with inv g k' p0 ;; params_new_of_with inv g p
  end.

Definition continues_at_with (inv : inversion)
    (g : Np.array -> result Np.array) (tol : R) (p0 : Np.array) (k : nat)
  : Prop :=
  exists p p' d,
    iterate_with inv g k p0 = Ok p /\ params_new_of_with inv g p = Ok p' /\
    Np.sub p' p = Ok d /\ ~ Np.norm d < tol.


(** What is known of any inversion routine: the matrix it returns has as
    many rows as the one it was given. *)
Definition keeps_shape (inv : inversion) : Prop :=
  forall m h, inv m = Ok h -> length h = length m.

(** An inversion that returns on the outer product of three numbers: the
    exact inverse of [m + eps I] (a regularised inverse; for [eps > 0] the
    matrix [g g^T + eps I] is invertible). *)
Definition add_diag (eps : R) (m : Np.matrix) : Np.matrix :=
  map (fun i =>
         map (fun j => nth j (nth i m []) 0 + (if Nat.eqb i j then eps else 0))
             (seq 0 (length m)))
      (seq 0 (length m)).

Definition inv_regularized (eps : R) : inversion :=
  fun m => Np.inv (add_diag eps m).

(** The sum of the squares of three numbers. *)
Definition sq3 (a b c : R) : R := a * a + b * b + c * c.

(** ** Basic facts about the monad and the event counters *)

(** The three ways in which one update can go. *)
Inductive update_shape (g : Np.array -> result Np.array) (p : Np.array)
  : M Np.array -> Prop :=
| shape_grad_raises e :
    g p = Raise e -> update_shape g p ([GradEval p], Raise e)
| shape_inv_raises grad e :
    g p = Ok grad -> Np.inv (outer_of grad) = Raise e ->
    update_shape g p ([GradEval p; Inversion (outer_of grad)], Raise e)
| shape_inv_ok grad hinv :
    g p = Ok grad -> Np.inv (outer_of grad) = Ok hinv ->
    update_shape g p ([GradEval p; Inversion (outer_of grad)],
                      Np.sub p (step_of hinv grad)).

Lemma newton_update_grad_raises g p e :
  g p = Raise e -> newton_update g p = ([GradEval p], Raise e).
Proof. intros Hg. unfold newton_update. simpl. rewrite Hg. reflexivity. Qed.

Lemma newton_update_inv_raises g p grad e :
  g p = Ok grad -> Np.inv (outer_of grad) = Raise e ->
  newton_update g p = ([GradEval p; Inversion (outer_of grad)], Raise e).
Proof.
  intros Hg Hi. unfold newton_update. simpl. rewrite Hg. simpl.
  fold (outer_of grad). rewrite Hi. reflexivity.
Qed.

Lemma newton_update_inv_ok g p grad hinv :
  g p = Ok grad -> Np.inv (outer_of grad) = Ok hinv ->
  newton_update g p =
  ([GradEval p; Inversion (outer_of grad)], Np.sub p (step_of hinv grad)).
Proof.
  intros Hg Hi. unfold newton_update. simpl. rewrite Hg. simpl.
  fold (outer_of grad). rewrite Hi. reflexivity.
Qed.

Lemma newton_update_shape g p : update_shape g p (newton_update g p).
Proof.
  destruct (g p) as [grad|e] eqn:Hg.
  - destruct (Np.inv (outer_of grad)) as [hinv|e] eqn:Hi.
    + rewrite (newton_update_inv_ok g p grad hinv Hg Hi). now constructor.
    + rewrite (newton_update_inv_raises g p grad e Hg Hi). now constructor.
  - rewrite (newton_update_grad_raises g p e Hg). now constructor.
Qed.

Lemma grad_evals_app tr1 tr2 :
  grad_evals (tr1 ++ tr2) = (grad_evals tr1 + grad_evals tr2)%nat.
Proof. unfold grad_evals. now rewrite filter_app, length_app. Qed.

Lemma inversions_app tr1 tr2 :
  inversions (tr1 ++ tr2) = (inversions tr1 + inversions tr2)%nat.
Proof. unfold inversions. now rewrite filter_app, length_app. Qed.

Lemma breaks_app tr1 tr2 :
  breaks (tr1 ++ tr2) = (breaks tr1 + breaks tr2)%nat.
Proof. unfold breaks. now rewrite filter_app, length_app. Qed.

(** One turn of the loop, by the outcome of its update and of its test. *)
Lemma newton_loop_update_raises g tol k p tr e :
  newton_update g p = (tr, Raise e) ->
  newton_loop g tol (S k) p = (tr, Raise e).
Proof. intros H. simpl. rewrite H. reflexivity. Qed.

Lemma newton_loop_sub_raises g tol k p tr p' e :
  newton_update g p = (tr, Ok p') -> Np.sub p' p = Raise e ->
  newton_loop g tol (S k) p = (tr ++ [], Raise e).
Proof. intros H Hs. simpl. rewrite H. simpl. rewrite Hs. reflexivity. Qed.

Lemma newton_loop_break g tol k p tr p' d :
  newton_update g p = (tr, Ok p') -> Np.sub p' p = Ok d ->
  Np.norm d < tol ->
  newton_loop g tol (S k) p = (tr ++ [Break], Ok p).
Proof.
  intros H Hs Hn. simpl. rewrite H. simpl. rewrite Hs. simpl.
  destruct (Rlt_dec (Np.norm d) tol) as [_|Hc]; [reflexivity | contradiction].
Qed.

Lemma newton_loop_continue g tol k p tr p' d :
  newton_update g p = (tr, Ok p') -> Np.sub p' p = Ok d ->
  ~ Np.norm d < tol ->
  newton_loop g tol (S k) p =
  (tr ++ fst (newton_loop g tol k p'), snd (newton_loop g tol k p')).
Proof.
  intros H Hs Hn. simpl. rewrite H. simpl. rewrite Hs. simpl.
  destruct (Rlt_dec (Np.norm d) tol) as [Hc|_]; [contradiction | reflexivity].
Qed.

(** ** The loop *)

Lemma zipWith_length f a b :
  length a = length b -> length (Np.zipWith f a b) = length a.
Proof.
  revert b. induction a as [|x a IH]; intros [|y b] H; simpl in *;
    try discriminate; auto.
Qed.

(** After [params_new = params - step] succeeded, the difference
    [params_new - params] of the convergence test cannot raise. *)
Lemma sub_after_sub p s p' :
  Np.sub p s = Ok p' -> exists d, Np.sub p' p = Ok d.
Proof.
  unfold Np.sub, Np.broadcast2. intros H.
  destruct (Nat.eqb (length p) (length s)) eqn:E1.
  - apply Nat.eqb_eq in E1. injection H as <-.
    rewrite (zipWith_length _ _ _ E1), Nat.eqb_refl. eauto.
  - destruct (Nat.eqb (length p) 1) eqn:E2.
    + injection H as <-. rewrite length_map.
      destruct (Nat.eqb (length s) (length p)); [eauto|].
      destruct (Nat.eqb (length s) 1); eauto.
    + destruct (Nat.eqb (length s) 1) eqn:E3; [|discriminate].
      injection H as <-. rewrite length_map, Nat.eqb_refl. eauto.
Qed.

(** A loop whose first [k] turns all go on does these [k] turns, with one
    gradient evaluation and one inversion each and no [break], and then
    behaves as a loop of the remaining turns started at the [k]-th vector. *)
Lemma newton_loop_prefix g tol k :
  forall n p0,
    (forall j, (j < k)%nat -> continues_at g tol p0 j) ->
    exists pk tr,
      iterate g k p0 = Ok pk /\
      newton_loop g tol (k + n) p0 =
        (tr ++ fst (newton_loop g tol n pk), snd (newton_loop g tol n pk)) /\
      grad_evals tr = k /\ inversions tr = k /\ breaks tr = 0%nat.
Proof.
  induction k as [|k IH]; intros n p0 Hc.
  - exists p0, []. simpl. repeat split; auto.
    now destruct (newton_loop g tol n p0).
  - destruct (IH (S n) p0) as (pk & tr & Hit & Hloop & Hg & Hi & Hb).
    { intros j Hj. apply Hc. lia. }
    destruct (Hc k (Nat.lt_succ_diag_r k)) as (p & p' & d & Hp & Hnew & Hd & Hn).
    rewrite Hit in Hp. injection Hp as <-.
    unfold params_new_of in Hnew.
    destruct (newton_update_shape g pk) as [e He|grad e Hgr Hinv|grad hinv Hgr Hinv];
      simpl in Hnew; try discriminate.
    exists p', (tr ++ [GradEval pk; Inversion (outer_of grad)]).
    split; [simpl; rewrite Hit; simpl; unfold params_new_of;
            rewrite (newton_update_inv_ok g pk grad hinv Hgr Hinv); exact Hnew|].
    split.
    + replace (S k + n)%nat with (k + S n)%nat by lia. rewrite Hloop.
      rewrite (newton_loop_continue g tol n pk _ p' d
                 (eq_trans (newton_update_inv_ok g pk grad hinv Hgr Hinv)
                           (f_equal _ Hnew)) Hd Hn).
      simpl fst. simpl snd. now rewrite <- !app_assoc.
    + rewrite grad_evals_app, inversions_app, breaks_app, Hg, Hi, Hb.
      cbn. repeat split; lia.
Qed.

(** What the test of turn [k] decides when it succeeds. *)
Lemma newton_loop_stops g tol n p p' :
  params_new_of g p = Ok p' ->
  (exists d, Np.sub p' p = Ok d /\ Np.norm d < tol) ->
  exists tr, newton_loop g tol (S n) p = (tr ++ [Break], Ok p) /\
             grad_evals tr = 1%nat /\ inversions tr = 1%nat /\ breaks tr = 0%nat.
Proof.
  intros Hnew (d & Hd & Hn). unfold params_new_of in Hnew.
  destruct (newton_update_shape g p) as [e He|grad e Hgr Hinv|grad hinv Hgr Hinv];
    simpl in Hnew; try discriminate.
  exists [GradEval p; Inversion (outer_of grad)]. split; [|now cbn].
  eapply newton_loop_break; eauto.
  rewrite (newton_update_inv_ok g p grad hinv Hgr Hinv). now rewrite Hnew.
Qed.

Lemma newton_loop_bounds g tol n :
  forall p,
    (grad_evals (fst (newton_loop g tol n p)) <= n)%nat /\
    (inversions (fst (newton_loop g tol n p))
       <= grad_evals (fst (newton_loop g tol n p)))%nat /\
    (forall q, snd (newton_loop g tol n p) = Ok q ->
       (breaks (fst (newton_loop g tol n p)) = 1%nat /\
        last (fst (newton_loop g tol n p)) (GradEval []) = Break) \/
       (breaks (fst (newton_loop g tol n p)) = 0%nat /\
        grad_evals (fst (newton_loop g tol n p)) = n)).
Proof.
  induction n as [|n IH]; intros p.
  - simpl. repeat split; auto.
  - destruct (newton_update_shape g p) as [e He|grad e Hgr Hinv|grad hinv Hgr Hinv].
    + rewrite (newton_loop_update_raises g tol n p _ e
                 (newton_update_grad_raises g p e He)).
      cbn. repeat split; try lia. discriminate.
    + rewrite (newton_loop_update_raises g tol n p _ e
                 (newton_update_inv_raises g p grad e Hgr Hinv)).
      cbn. repeat split; try lia. discriminate.
    + pose proof (newton_update_inv_ok g p grad hinv Hgr Hinv) as Hup.
      destruct (Np.sub p (step_of hinv grad)) as [p'|e] eqn:Hsub.
      * destruct (sub_after_sub _ _ _ Hsub) as [d Hd].
        destruct (Rlt_dec (Np.norm d) tol) as [Hlt|Hge].
        -- rewrite (newton_loop_break g tol n p _ p' d Hup Hd Hlt).
           cbn. repeat split; try lia. intros _ _. left. split; reflexivity.
        -- rewrite (newton_loop_continue g tol n p _ p' d Hup Hd Hge).
           destruct (IH p') as (Hg & Hi & Hq).
           cbn [fst snd]. rewrite grad_evals_app, inversions_app, breaks_app.
           cbn. repeat split; try lia.
           intros q Hr. destruct (Hq q Hr) as [[Hb Hl]|[Hb Hc]].
           ++ left. split; [lia|].
              destruct (fst (newton_loop g tol n p')) as [|ev tr];
                [discriminate|exact Hl].
           ++ right. lia.
      * rewrite (newton_loop_update_raises g tol n p _ e Hup).
        cbn. repeat split; try lia. discriminate.
Qed.

(** ** One parameter: the case in which an exact inverse exists *)

(** ** One parameter: the case in which an exact inverse exists *)

Lemma norm_1d d : Np.norm [d] = Rabs d.
Proof.
  unfold Np.norm, Np.square, Np.sum. simpl.
  replace (d * (d * 1) + 0) with (Rsqr d) by (unfold Rsqr; ring).
  apply sqrt_Rsqr_abs.
Qed.

Lemma det_1x1 a : Np.det [[a]] = a.
Proof. cbn. ring. Qed.

Lemma inv_1x1 a : a <> 0 -> exists h, Np.inv [[a]] = Ok [[h]] /\ h = / a.
Proof.
  intros Ha. unfold Np.inv. simpl.
  destruct (Req_dec_T (Np.det [[a]]) 0) as [E|_].
  - rewrite det_1x1 in E. contradiction.
  - eexists. split; [reflexivity|].
    rewrite det_1x1. cbn. now field.
Qed.

Lemma params_new_1d g x gx :
  g [x] = Ok [gx] -> gx <> 0 -> params_new_of g [x] = Ok [x - / gx].
Proof.
  intros Hg Hgx.
  assert (Hout : exists a, outer_of [gx] = [[a]] /\ a = gx * gx).
  { eexists. split; [reflexivity|]. cbn. ring. }
  destruct Hout as (a & Hout & Ha).
  destruct (inv_1x1 a) as (h & Hinv & Hh).
  { rewrite Ha. now apply Rmult_integral_contrapositive_currified. }
  rewrite <- Hout in Hinv.
  unfold params_new_of. rewrite (newton_update_inv_ok g [x] [gx] _ Hg Hinv).
  cbn. f_equal. f_equal. rewrite Hh, Ha.
  now field.
Qed.

Lemma sub_1d a b : Np.sub [a] [b] = Ok [a - b].
Proof. reflexivity. Qed.

(** A gradient that is the same non-zero number [c] everywhere moves the
    parameter by [1 / c] on every turn. *)
Lemma iterate_1d_const c x k :
  c <> 0 -> iterate (fun _ => Ok [c]) k [x] = Ok [x - INR k * / c].
Proof.
  intros Hc. induction k as [|k IH].
  - simpl. f_equal. f_equal. ring.
  - cbn [iterate]. rewrite IH. cbn [rbind].
    rewrite (params_new_1d (fun _ => Ok [c]) _ c eq_refl Hc). f_equal. f_equal.
    rewrite S_INR. ring.
Qed.

Lemma continues_at_1d_const c x tol j :
  c <> 0 -> tol <= Rabs (/ c) -> continues_at (fun _ => Ok [c]) tol [x] j.
Proof.
  intros Hc Htol. unfold continues_at.
  exists [x - INR j * / c], [x - INR j * / c - / c], [x - INR j * / c - / c - (x - INR j * / c)].
  split; [now apply iterate_1d_const|].
  split; [now apply (params_new_1d (fun _ => Ok [c]) _ c)|].
  split; [apply sub_1d|].
  rewrite norm_1d.
  replace (x - INR j * / c - / c - (x - INR j * / c)) with (- / c) by ring.
  rewrite Rabs_Ropp. lra.
Qed.

Lemma Rabs_half : Rabs (/ 2) = / 2.
Proof. apply Rabs_pos_eq. lra. Qed.

(** ** The loop of [newtonMethod]: the claims *)

(** C5.  With [max_iter = 0] the loop body never runs: [newtonMethod]
    returns the initial parameter vector as it is, and its log is empty,
    so that no gradient was evaluated and no matrix inverted.  This holds
    for every initial vector, tolerance, gradient function (hence every
    data set) and for whatever is passed as [func] and [lostFunction]. *)
Theorem newtonMethod_zero_iterations :
  forall (F L : Type) (f : F) (l : L) (g : Np.array -> result Np.array)
         (params_initial : Np.array) (tol : R),
    newtonMethod f l g params_initial 0 tol = ([], Ok params_initial) /\
    grad_evals (fst (newtonMethod f l g params_initial 0 tol)) = 0%nat /\
    inversions (fst (newtonMethod f l g params_initial 0 tol)) = 0%nat.
Proof. intros. repeat split. Qed.

(** C9.  The first two arguments of [newtonMethod] play no part: for any
    two choices of the forward model and of the loss function, of any
    types, and the same remaining arguments, the run (log and result) is
    the same. *)
Theorem newtonMethod_ignores_model_and_loss :
  forall (F1 L1 F2 L2 : Type) (f1 : F1) (l1 : L1) (f2 : F2) (l2 : L2)
         (g : Np.array -> result Np.array) (params_initial : Np.array)
         (max_iter : Z) (tol : R),
    newtonMethod f1 l1 g params_initial max_iter tol =
    newtonMethod f2 l2 g params_initial max_iter tol.
Proof. reflexivity. Qed.

(** C10.  For every natural number [max_iter] and every gradient function
    the run of [newtonMethod] is a finite log with at most [max_iter]
    gradient evaluations (one per turn of the loop) and no more inversions
    than gradient evaluations.  A run that returns normally either took the
    [break], which is then the last thing it did, or did exactly
    [max_iter] turns; there is no third way out. *)
Theorem newtonMethod_bounded :
  forall (F L : Type) (f : F) (l : L) (g : Np.array -> result Np.array)
         (params_initial : Np.array) (max_iter : nat) (tol : R),
    let run := newtonMethod f l g params_initial (Z.of_nat max_iter) tol in
    (grad_evals (fst run) <= max_iter)%nat /\
    (inversions (fst run) <= max_iter)%nat /\
    (forall q, snd run = Ok q ->
       (breaks (fst run) = 1%nat /\ last (fst run) (GradEval []) = Break) \/
       (breaks (fst run) = 0%nat /\ grad_evals (fst run) = max_iter)).
Proof.
  intros F L f l g p n tol run. subst run. unfold newtonMethod.
  rewrite Nat2Z.id.
  destruct (newton_loop_bounds g tol n p) as (Hg & Hi & Hq).
  repeat split; auto. lia.
Qed.

(** The run of a loop whose first successful convergence test is that of
    turn [k]. *)
Lemma newton_loop_converged g tol p0 k p p' n :
  converges_at g tol p0 k p p' -> (k < n)%nat ->
  snd (newton_loop g tol n p0) = Ok p /\
  grad_evals (fst (newton_loop g tol n p0)) = S k /\
  inversions (fst (newton_loop g tol n p0)) = S k /\
  breaks (fst (newton_loop g tol n p0)) = 1%nat /\
  last (fst (newton_loop g tol n p0)) (GradEval []) = Break.
Proof.
  intros (Hc & Hit & Hnew & Hd) Hk.
  replace n with (k + S (n - S k))%nat by lia.
  destruct (newton_loop_prefix g tol k (S (n - S k)) p0 Hc)
    as (pk & tr & Hit' & Hloop & Hg & Hi & Hb).
  rewrite Hit in Hit'. injection Hit' as <-.
  destruct (newton_loop_stops g tol (n - S k) p p' Hnew Hd)
    as (tr' & Hstop & Hg' & Hi' & Hb').
  rewrite Hloop, Hstop. cbn [fst snd].
  rewrite !grad_evals_app, !inversions_app, !breaks_app, Hg, Hi, Hb, Hg', Hi', Hb'.
  cbn. repeat split; try lia.
  rewrite app_assoc. apply last_last.
Qed.

Lemma converges_at_first_1d c x tol :
  c <> 0 -> Rabs (/ c) < tol ->
  converges_at (fun _ => Ok [c]) tol [x] 0 [x] [x - / c].
Proof.
  intros Hc Htol. unfold converges_at.
  split; [intros j Hj; lia|].
  split; [reflexivity|].
  split; [now apply (params_new_1d (fun _ => Ok [c]) _ c)|].
  exists [x - / c - x]. split; [apply sub_1d|].
  rewrite norm_1d. replace (x - / c - x) with (- / c) by ring.
  now rewrite Rabs_Ropp.
Qed.

(** The same with one parameter, where the numbers are small enough to
    be followed by hand and the exact inverse exists.  A gradient that is
    2 everywhere, tolerance 1: the first turn computes [new_params = 0 - 1/2]
    from [current_params = 0], the norm [1/2] is below the tolerance, the
    loop stops, and what [newtonMethod] returns is [0], not [new_params]. *)
Lemma newtonMethod_converged_returns_new_fails :
  converges_at (fun _ => Ok [2]) 1 [0] 0 [0] [0 - / 2] /\
  snd (newtonMethod func (lossFunction [] []) (fun _ => Ok [2]) [0] 1 1) = Ok [0] /\
  snd (newtonMethod func (lossFunction [] []) (fun _ => Ok [2]) [0] 1 1) <> Ok [0 - / 2].
Proof.
  assert (H : converges_at (fun _ => Ok [2]) 1 [0] 0 [0] [0 - / 2]).
  { apply converges_at_first_1d; [lra|]. rewrite Rabs_half. lra. }
  assert (R : snd (newtonMethod func (lossFunction [] []) (fun _ => Ok [2]) [0] 1 1) = Ok [0]).
  { unfold newtonMethod.
    apply (newton_loop_converged _ _ _ 0%nat [0] [0 - / 2] (Z.to_nat 1) H).
    simpl. lia. }
  split; [exact H|]. split; [exact R|].
  rewrite R. intros E. injection E as E. lra.
Qed.

(** ** The linear algebra of one update *)

Lemma map_hd_reshape_col a : map (hd 0) (Np.reshape_col a) = a.
Proof. induction a as [|x a IH]; simpl; [reflexivity | now rewrite IH]. Qed.

Lemma transpose_n_row a : Np.transpose_n (length a) [a] = Np.reshape_col a.
Proof. induction a as [|x a IH]; simpl; [reflexivity | now rewrite IH]. Qed.

Lemma transpose_reshape_col x a :
  Np.transpose (Np.reshape_col (x :: a)) = [x :: a].
Proof.
  unfold Np.transpose. simpl. now rewrite map_hd_reshape_col.
Qed.

Lemma outer_of_spec grad : outer_of grad = outer_spec grad.
Proof.
  destruct grad as [|x a]; [reflexivity|].
  unfold outer_of, outer_spec, Np.dot.
  rewrite transpose_reshape_col. unfold Np.transpose.
  cbn [hd]. rewrite transpose_n_row.
  unfold Np.reshape_col at 2. rewrite map_map.
  apply map_ext. intros gi.
  unfold Np.reshape_col. rewrite map_map.
  apply map_ext. intros gj. cbn. ring.
Qed.

Lemma flatten_singletons (f : Np.array -> R) (m : Np.matrix) :
  Np.flatten (map (fun row => [f row]) m) = map f m.
Proof. induction m as [|r m IH]; simpl; [reflexivity | now rewrite <- IH]. Qed.

Lemma step_of_mat_vec hinv x a :
  step_of hinv (x :: a) = mat_vec hinv (x :: a).
Proof.
  unfold step_of, mat_vec, Np.dot. rewrite transpose_reshape_col.
  apply (flatten_singletons (fun row => Np.dotp row (x :: a))).
Qed.

Lemma inv_nil : Np.inv [] = Ok [].
Proof.
  unfold Np.inv. simpl.
  destruct (Req_dec_T (Np.det []) 0) as [E|_]; [|reflexivity].
  cbn in E. lra.
Qed.

Lemma inv_length m h : Np.inv m = Ok h -> length h = length m.
Proof.
  unfold Np.inv. destruct (Np.is_square m); [|discriminate].
  destruct (Req_dec_T (Np.det m) 0); [discriminate|].
  intros H. injection H as <-. unfold Np.adjugate.
  now rewrite !length_map, length_seq.
Qed.

Lemma sub_same_length a b :
  length a = length b -> Np.sub a b = Ok (Np.zipWith Rminus a b).
Proof.
  intros H. unfold Np.sub, Np.broadcast2. now rewrite H, Nat.eqb_refl.
Qed.

(** The outer product of a vector of three numbers with itself has
    determinant zero, so that its inversion raises. *)
Lemma det_outer_3 a b c : Np.det (outer_spec [a; b; c]) = 0.
Proof. cbn. ring. Qed.

Lemma inv_outer_3 a b c :
  Np.inv (outer_spec [a; b; c]) = Raise (LinAlgError SingularMatrix).
Proof.
  unfold Np.inv.
  assert (Hsq : Np.is_square (outer_spec [a; b; c]) = true) by reflexivity.
  rewrite Hsq.
  destruct (Req_dec_T (Np.det (outer_spec [a; b; c])) 0) as [_|N];
    [reflexivity|].
  exfalso. apply N, det_outer_3.
Qed.

Lemma outer_of_zero_3 : outer_of [0; 0; 0] = zero_matrix_3.
Proof.
  rewrite outer_of_spec. unfold outer_spec, zero_matrix_3. simpl.
  repeat f_equal; ring.
Qed.

Lemma inv_zero_matrix_3 : Np.inv zero_matrix_3 = Raise (LinAlgError SingularMatrix).
Proof.
  rewrite <- outer_of_zero_3, outer_of_spec. apply inv_outer_3.
Qed.

(** A turn of the loop that meets a gradient of three zeros. *)
Lemma newton_loop_zero_gradient g tol n p :
  g p = Ok [0; 0; 0] ->
  newton_loop g tol (S n) p =
  ([GradEval p; Inversion zero_matrix_3], Raise (LinAlgError SingularMatrix)).
Proof.
  intros Hg. apply newton_loop_update_raises.
  rewrite <- outer_of_zero_3. apply newton_update_inv_raises; [exact Hg|].
  rewrite outer_of_zero_3. apply inv_zero_matrix_3.
Qed.

(** In exact arithmetic the same holds for every gradient of three
    numbers: its outer product has rank at most one. *)
Lemma newton_loop_three_params_raises g tol n p a b c :
  g p = Ok [a; b; c] ->
  newton_loop g tol (S n) p =
  ([GradEval p; Inversion (outer_spec [a; b; c])],
   Raise (LinAlgError SingularMatrix)).
Proof.
  intros Hg. apply newton_loop_update_raises.
  rewrite <- outer_of_spec. apply newton_update_inv_raises; [exact Hg|].
  rewrite outer_of_spec. apply inv_outer_3.
Qed.

(** When [Np.inv] returns, what it returns is the inverse (shown here for
    the sizes up to three, by computation). *)
Lemma inv_2x2_correct a b c d hinv :
  Np.inv [[a; b]; [c; d]] = Ok hinv ->
  Np.dot [[a; b]; [c; d]] hinv = identity 2.
Proof.
  unfold Np.inv. cbn [Np.is_square forallb length Nat.eqb andb].
  destruct (Req_dec_T (Np.det [[a; b]; [c; d]]) 0) as [|N]; [discriminate|].
  intros H. injection H as <-. cbn in N. cbn.
  repeat f_equal; field; intros E; apply N;
    (etransitivity; [|exact E]); ring.
Qed.


(** ** Sums over the samples *)

Lemma Sigma_S_first n f : Sigma (S n) f = f 0%nat + Sigma n (fun i => f (S i)).
Proof.
  unfold Sigma. simpl. now rewrite <- seq_shift, map_map.
Qed.

Lemma Sigma_ext n f h :
  (forall i, (i < n)%nat -> f i = h i) -> Sigma n f = Sigma n h.
Proof.
  revert f h. induction n as [|n IH]; intros f h E; [reflexivity|].
  rewrite !Sigma_S_first, (E 0%nat) by lia.
  f_equal. apply IH. intros i Hi. apply E. lia.
Qed.

Lemma sum_as_Sigma (l : Np.array) :
  Np.sum l = Sigma (length l) (fun i => nth i l 0).
Proof.
  induction l as [|x l IH]; [reflexivity|].
  cbn [length]. rewrite Sigma_S_first. simpl. now rewrite IH.
Qed.

Lemma Sigma_nonneg n f :
  (forall i, (i < n)%nat -> 0 <= f i) -> 0 <= Sigma n f.
Proof.
  revert f. induction n as [|n IH]; intros f H.
  - unfold Sigma. simpl. lra.
  - rewrite Sigma_S_first.
    assert (0 <= f 0%nat) by (apply H; lia).
    assert (0 <= Sigma n (fun i => f (S i))) by (apply IH; intros; apply H; lia).
    lra.
Qed.

Lemma Sigma_zero_terms n f :
  (forall i, (i < n)%nat -> 0 <= f i) -> Sigma n f = 0 ->
  forall i, (i < n)%nat -> f i = 0.
Proof.
  revert f. induction n as [|n IH]; intros f H E i Hi; [lia|].
  rewrite Sigma_S_first in E.
  assert (H0 : 0 <= f 0%nat) by (apply H; lia).
  assert (Hs : 0 <= Sigma n (fun i => f (S i)))
    by (apply Sigma_nonneg; intros; apply H; lia).
  destruct i as [|i]; [lra|].
  apply (IH (fun i => f (S i))); [intros; apply H; lia | lra | lia].
Qed.

Lemma Sigma_all_zero n f :
  (forall i, (i < n)%nat -> f i = 0) -> Sigma n f = 0.
Proof.
  intros H. rewrite (Sigma_ext n f (fun _ => 0) H).
  clear. induction n as [|n IH]; [reflexivity|].
  rewrite Sigma_S_first, IH. ring.
Qed.

Lemma nth_zipWith f a b i :
  length a = length b -> (i < length a)%nat ->
  nth i (Np.zipWith f a b) 0 = f (nth i a 0) (nth i b 0).
Proof.
  revert b i. induction a as [|x a IH]; intros [|y b] i Hl Hi; simpl in *;
    try lia; try discriminate.
  destruct i as [|i]; [reflexivity|]. apply IH; lia.
Qed.

Lemma nth_map_in (f : R -> R) l i :
  (i < length l)%nat -> nth i (map f l) 0 = f (nth i l 0).
Proof.
  intros Hi. rewrite (nth_indep _ 0 (f 0)) by (now rewrite length_map).
  apply map_nth.
Qed.

(** ** The forward model, the loss and its gradient *)

Lemma func_value t A W Z : func t [A; W; Z] = Ok (map (prediction A W Z) t).
Proof.
  unfold func, Np.smul, Np.sin, Np.sadd. now rewrite !map_map.
Qed.

Lemma residual_nth t y A W Z i :
  length t = length y -> (i < length y)%nat ->
  nth i (Np.zipWith Rminus y (map (prediction A W Z) t)) 0 = residual t y A W Z i.
Proof.
  intros Hl Hi. unfold residual.
  rewrite nth_zipWith, nth_map_in; auto; try lia. now rewrite length_map.
Qed.

Lemma error_value t y A W Z :
  length t = length y ->
  Np.sub y (map (prediction A W Z) t) =
  Ok (Np.zipWith Rminus y (map (prediction A W Z) t)).
Proof. intros Hl. apply sub_same_length. now rewrite length_map. Qed.

Lemma error_length t y A W Z :
  length t = length y ->
  length (Np.zipWith Rminus y (map (prediction A W Z) t)) = length y.
Proof. intros Hl. apply zipWith_length. now rewrite length_map. Qed.

Lemma lossFunction_value t y A W Z :
  length t = length y ->
  lossFunction t y [A; W; Z] =
  Ok (Sigma (length y) (fun i => (residual t y A W Z i) ^ 2) / INR (length y)).
Proof.
  intros Hl. unfold lossFunction. rewrite func_value. cbn [rbind].
  rewrite (error_value t y A W Z Hl). cbn [rbind]. f_equal. f_equal.
  rewrite sum_as_Sigma. unfold Np.square. rewrite length_map, error_length by exact Hl.
  apply Sigma_ext. intros i Hi.
  rewrite nth_map_in by (now rewrite error_length).
  now rewrite residual_nth.
Qed.

Lemma dotp_as_Sigma row e :
  length row = length e ->
  Np.dotp row e = Sigma (length e) (fun i => nth i row 0 * nth i e 0).
Proof.
  intros Hl. unfold Np.dotp. rewrite sum_as_Sigma, zipWith_length, Hl by exact Hl.
  apply Sigma_ext. intros i Hi. apply nth_zipWith; lia.
Qed.

Lemma angle_map t W Z :
  Np.sadd (Np.smul W t) Z = map (fun x => W * x + Z) t.
Proof. unfold Np.sadd, Np.smul. now rewrite map_map. Qed.

Lemma dA_nth t A W Z i :
  (i < length t)%nat ->
  nth i (Np.sin (Np.sadd (Np.smul W t) Z)) 0 = D_spec t A W Z 0 i.
Proof.
  intros Hi. rewrite angle_map. unfold Np.sin. rewrite map_map.
  now rewrite (nth_map_in (fun x => sin (W * x + Z))).
Qed.

Lemma dZ_nth t A W Z i :
  (i < length t)%nat ->
  nth i (Np.smul A (Np.cos (Np.sadd (Np.smul W t) Z))) 0 = D_spec t A W Z 2 i.
Proof.
  intros Hi. rewrite angle_map. unfold Np.smul, Np.cos. rewrite !map_map.
  now rewrite (nth_map_in (fun x => A * cos (W * x + Z))).
Qed.

Lemma dW_nth t A W Z i :
  (i < length t)%nat ->
  nth i (Np.zipWith Rmult (Np.smul A t) (Np.cos (Np.sadd (Np.smul W t) Z))) 0
  = D_spec t A W Z 1 i.
Proof.
  intros Hi. rewrite angle_map. unfold Np.smul, Np.cos. rewrite map_map.
  rewrite nth_zipWith by (rewrite !length_map; auto).
  rewrite (nth_map_in (fun x => A * x)), (nth_map_in (fun x => cos (W * x + Z))) by auto.
  reflexivity.
Qed.

Lemma deriv_row_lengths t A W Z :
  length (Np.sin (Np.sadd (Np.smul W t) Z)) = length t /\
  length (Np.zipWith Rmult (Np.smul A t) (Np.cos (Np.sadd (Np.smul W t) Z))) = length t /\
  length (Np.smul A (Np.cos (Np.sadd (Np.smul W t) Z))) = length t.
Proof.
  unfold Np.sin, Np.cos, Np.smul, Np.sadd. repeat split.
  - now rewrite !length_map.
  - rewrite zipWith_length; now rewrite !length_map.
  - now rewrite !length_map.
Qed.

Lemma lossFunctionGradient_value t y A W Z :
  length t = length y ->
  lossFunctionGradient t y [A; W; Z] = Ok (gradient_spec t y A W Z).
Proof.
  intros Hl. unfold lossFunctionGradient. rewrite func_value. cbn [rbind].
  rewrite (error_value t y A W Z Hl). cbn [rbind funcDeriv].
  pose proof (error_length t y A W Z Hl) as He.
  destruct (deriv_row_lengths t A W Z) as (L1 & L2 & L3).
  unfold Np.dot_mv. cbn [forallb]. rewrite L1, L2, L3, He, Hl, Nat.eqb_refl.
  cbn [andb rbind map Np.smul]. unfold gradient_spec. cbn [map].
  rewrite !dotp_as_Sigma by congruence. rewrite He.
  f_equal.
  apply f_equal2;
    [apply f_equal, Sigma_ext; intros i Hi; rewrite residual_nth by auto;
     f_equal; apply dA_nth; lia|].
  apply f_equal2;
    [apply f_equal, Sigma_ext; intros i Hi; rewrite residual_nth by auto;
     f_equal; apply dW_nth; lia|].
  apply f_equal2; [|reflexivity].
  apply f_equal, Sigma_ext; intros i Hi. rewrite residual_nth by auto.
  f_equal. apply dZ_nth. lia.
Qed.

(** C6.  For a parameter vector [(A, W, Z)] and [n > 0] samples,
    [lossFunction] returns the number [(1/n) * sum (y_i - yhat_i)^2] with
    [yhat_i = A sin (W t_i + Z)]; that number is at least 0, and it is 0
    exactly when every prediction equals the observed value. *)
Theorem lossFunction_is_mse :
  forall (t_data y_data : Np.array) (A W Z : R),
    length t_data = length y_data -> y_data <> [] ->
    lossFunction t_data y_data [A; W; Z] = Ok (mse_spec t_data y_data A W Z) /\
    0 <= mse_spec t_data y_data A W Z /\
    (mse_spec t_data y_data A W Z = 0 <->
     forall i, (i < length y_data)%nat ->
       nth i y_data 0 = prediction A W Z (nth i t_data 0)).
Proof.
  intros t y A W Z Hl Hy.
  assert (Hn : 0 < INR (length y)).
  { apply lt_0_INR. destruct y; [contradiction | simpl; lia]. }
  assert (Hsq : forall i, (i < length y)%nat -> 0 <= residual t y A W Z i ^ 2).
  { intros i _. apply pow2_ge_0. }
  pose proof (Sigma_nonneg _ _ Hsq) as Hs.
  split; [|split].
  - rewrite lossFunction_value by exact Hl. unfold mse_spec. f_equal.
    field. lra.
  - unfold mse_spec. apply Rmult_le_pos; [|exact Hs].
    apply Rlt_le. unfold Rdiv. rewrite Rmult_1_l. now apply Rinv_0_lt_compat.
  - unfold mse_spec. split.
    + intros E i Hi.
      assert (E' : Sigma (length y) (fun i => residual t y A W Z i ^ 2) = 0).
      { apply Rmult_integral in E. destruct E as [E|E]; [|exact E].
        exfalso. unfold Rdiv in E. rewrite Rmult_1_l in E.
        apply (Rinv_neq_0_compat (INR (length y))); [lra | exact E]. }
      pose proof (Sigma_zero_terms _ _ Hsq E' i Hi) as Hz. simpl in Hz.
      unfold residual in Hz. nra.
    + intros E. rewrite Sigma_all_zero; [ring|].
      intros i Hi. unfold residual. rewrite (E i Hi). ring.
Qed.

Lemma lossFunction_is_mse_witness :
  length [0; 1] = length [5; 7] /\ [5; 7] <> [] /\
  lossFunction [0; 1] [5; 7] [1; 1; 1] = Ok (mse_spec [0; 1] [5; 7] 1 1 1) /\
  0 <= mse_spec [0; 1] [5; 7] 1 1 1 /\
  (mse_spec [0; 1] [5; 7] 1 1 1 = 0 <->
   forall i, (i < length [5; 7])%nat ->
     nth i [5; 7] 0 = prediction 1 1 1 (nth i [0; 1] 0)).
Proof.
  assert (H1 : length [0; 1] = length [5; 7]) by reflexivity.
  assert (H2 : [5; 7] <> []) by discriminate.
  split; [exact H1|]. split; [exact H2|].
  exact (lossFunction_is_mse [0; 1] [5; 7] 1 1 1 H1 H2).
Defined.

(** C7.  For a parameter vector [(A, W, Z)] and a sample set,
    [lossFunctionGradient] returns the vector of three numbers
    [-2 * D . e], where row 1 of [D] is [sin (W t_i + Z)], row 2 is
    [A t_i cos (W t_i + Z)], row 3 is [A cos (W t_i + Z)], and
    [e_i = y_i - yhat_i]. *)
Theorem lossFunctionGradient_is_minus_two_D_e :
  forall (t_data y_data : Np.array) (A W Z : R),
    length t_data = length y_data ->
    lossFunctionGradient t_data y_data [A; W; Z] =
      Ok (gradient_spec t_data y_data A W Z) /\
    length (gradient_spec t_data y_data A W Z) = 3%nat.
Proof.
  intros t y A W Z Hl. split; [now apply lossFunctionGradient_value | reflexivity].
Qed.

Lemma lossFunctionGradient_is_minus_two_D_e_witness :
  length [0; 1] = length [5; 7] /\
  lossFunctionGradient [0; 1] [5; 7] [1; 1; 1] =
    Ok (gradient_spec [0; 1] [5; 7] 1 1 1) /\
  length (gradient_spec [0; 1] [5; 7] 1 1 1) = 3%nat.
Proof.
  assert (H1 : length [0; 1] = length [5; 7]) by reflexivity.
  split; [exact H1|].
  exact (lossFunctionGradient_is_minus_two_D_e [0; 1] [5; 7] 1 1 1 H1).
Defined.

(** ** The update and the singular cases: the claims *)

Lemma outer_spec_length grad : length (outer_spec grad) = length grad.
Proof. unfold outer_spec. now rewrite length_map. Qed.

Lemma newton_update_value g p grad :
  g p = Ok grad -> length grad = length p ->
  newton_update g p =
  ([GradEval p; Inversion (outer_spec grad)],
   hinv <-? Np.inv (outer_spec grad) ;;
   Ok (Np.zipWith Rminus p (mat_vec hinv grad))).
Proof.
  intros Hg Hl. rewrite <- outer_of_spec.
  destruct (Np.inv (outer_of grad)) as [hinv|e] eqn:Hi.
  - rewrite (newton_update_inv_ok g p grad hinv Hg Hi). cbn [rbind]. f_equal.
    destruct grad as [|x a].
    + destruct p; [|discriminate].
      change (outer_of []) with (@nil Np.array) in Hi. rewrite inv_nil in Hi.
      injection Hi as <-. reflexivity.
    + rewrite step_of_mat_vec. apply sub_same_length.
      unfold mat_vec. rewrite length_map, (inv_length _ _ Hi).
      rewrite outer_of_spec, outer_spec_length. auto.
  - now rewrite (newton_update_inv_raises g p grad e Hg Hi).
Qed.

(** C2.  Where the gradient is the zero vector of three numbers, the outer
    product is the 3 by 3 zero matrix, its inversion raises the
    singular-matrix error, and that error is the outcome of the turn, of
    the loop and of [newtonMethod]: the log stops at that single
    inversion, nothing is tried again and no later turn runs. *)
Theorem zero_gradient_raises_singular :
  forall (F L : Type) (f : F) (l : L) (g : Np.array -> result Np.array)
         (params : Np.array) (max_iter : Z) (tol : R),
    g params = Ok [0; 0; 0] -> (0 < max_iter)%Z ->
    outer_of [0; 0; 0] = zero_matrix_3 /\
    Np.inv zero_matrix_3 = Raise (LinAlgError SingularMatrix) /\
    (forall n, newton_loop g tol (S n) params =
       ([GradEval params; Inversion zero_matrix_3],
        Raise (LinAlgError SingularMatrix))) /\
    newtonMethod f l g params max_iter tol =
      ([GradEval params; Inversion zero_matrix_3],
       Raise (LinAlgError SingularMatrix)).
Proof.
  intros F L f l g p max_iter tol Hg Hm.
  split; [apply outer_of_zero_3|]. split; [apply inv_zero_matrix_3|].
  split; [intros n; now apply newton_loop_zero_gradient|].
  unfold newtonMethod.
  destruct (Z.to_nat max_iter) as [|n] eqn:E; [lia|].
  now apply newton_loop_zero_gradient.
Qed.

Lemma zero_gradient_raises_singular_witness :
  (fun _ : Np.array => Ok [0; 0; 0]) [1; 1; 1] = Ok [0; 0; 0] /\
  (0 < 100)%Z /\
  outer_of [0; 0; 0] = zero_matrix_3 /\
  Np.inv zero_matrix_3 = Raise (LinAlgError SingularMatrix) /\
  (forall n, newton_loop (fun _ => Ok [0; 0; 0]) default_tol (S n) [1; 1; 1] =
     ([GradEval [1; 1; 1]; Inversion zero_matrix_3],
      Raise (LinAlgError SingularMatrix))) /\
  newtonMethod func (lossFunction [] []) (fun _ => Ok [0; 0; 0]) [1; 1; 1] 100
    default_tol =
  ([GradEval [1; 1; 1]; Inversion zero_matrix_3],
   Raise (LinAlgError SingularMatrix)).
Proof.
  assert (K : (0 < 100)%Z) by reflexivity.
  split; [reflexivity|]. split; [exact K|].
  exact (zero_gradient_raises_singular _ _ func (lossFunction [] [])
           (fun _ => Ok [0; 0; 0]) [1; 1; 1] 100%Z default_tol eq_refl K).
Defined.

(** At the parameters that generated noiseless data every residual is 0,
    and so is the gradient. *)
Lemma gradient_at_generating_params t A W Z y :
  func t [A; W; Z] = Ok y ->
  lossFunctionGradient t y [A; W; Z] = Ok [0; 0; 0].
Proof.
  rewrite func_value. intros H. injection H as <-.
  rewrite lossFunctionGradient_value by (now rewrite length_map).
  unfold gradient_spec. cbn [map]. f_equal.
  assert (Hz : forall row,
             -2 * Sigma (length (map (prediction A W Z) t))
                    (fun i => D_spec t A W Z row i *
                              residual t (map (prediction A W Z) t) A W Z i) = 0).
  { intros row. rewrite Sigma_all_zero; [ring|].
    intros i Hi. unfold residual. rewrite length_map in Hi.
    rewrite nth_map_in by exact Hi. ring. }
  now rewrite !Hz.
Qed.

(** Started at the generating parameters of noiseless data, with at least
    one turn allowed, [newtonMethod] raises in its first turn. *)
Lemma newtonMethod_at_generating_params t A W Z y max_iter tol :
  func t [A; W; Z] = Ok y -> (0 < max_iter)%Z ->
  newtonMethod func (lossFunction t y) (lossFunctionGradient t y) [A; W; Z]
    max_iter tol =
  ([GradEval [A; W; Z]; Inversion zero_matrix_3],
   Raise (LinAlgError SingularMatrix)).
Proof.
  intros Hy Hm. unfold newtonMethod.
  destruct (Z.to_nat max_iter) as [|n] eqn:E; [lia|].
  apply newton_loop_zero_gradient.
  now apply gradient_at_generating_params.
Qed.

(** C8, on the code.  The notebook's own data (100 points of
    [3 sin (2 t + pi/6)] on [[0, 3 pi]]) with the generating parameters
    [[3, 2, pi/6]] as the initial guess and the default [max_iter] and
    [tol]: the first turn evaluates the gradient, which is zero, tries to
    invert the zero matrix, and [newtonMethod] raises the singular-matrix
    error; it does not report convergence and does not return. *)
Theorem newtonMethod_at_true_params_raises :
  newtonMethod func (lossFunction notebook_t_data notebook_y_data)
    (lossFunctionGradient notebook_t_data notebook_y_data)
    true_params default_max_iter default_tol =
  ([GradEval true_params; Inversion zero_matrix_3],
   Raise (LinAlgError SingularMatrix)).
Proof.
  unfold true_params.
  apply newtonMethod_at_generating_params; reflexivity.
Qed.

(** * Further properties of the notebook's functions *)

(** ** The forward model and its partial derivatives *)

Lemma length_three (l : Np.array) :
  length l = 3%nat -> exists A W Z, l = [A; W; Z].
Proof.
  destruct l as [|A [|W [|Z [|x l]]]]; simpl; intros H; try discriminate.
  now exists A, W, Z.
Qed.

Lemma func_not_three t params :
  length params <> 3%nat -> func t params = Raise ValueError.
Proof.
  destruct params as [|A [|W [|Z [|x l]]]]; simpl; intros H;
    try reflexivity. contradiction.
Qed.

Lemma funcDeriv_not_three t params :
  length params <> 3%nat -> funcDeriv t params = Raise ValueError.
Proof.
  destruct params as [|A [|W [|Z [|x l]]]]; simpl; intros H;
    try reflexivity. contradiction.
Qed.

(** X1.  [func] returns exactly when [params] unpacks into three values;
    then the result is as long as [t] and its [i]-th entry is
    [A sin (W t_i + Z)].  For any other number of parameters it raises
    [ValueError]. *)
Theorem func_returns_predictions :
  forall (t params : Np.array),
    (length params = 3%nat ->
     exists y, func t params = Ok y /\ length y = length t /\
       forall i, (i < length t)%nat ->
         nth i y 0 =
         nth 0 params 0 * sin (nth 1 params 0 * nth i t 0 + nth 2 params 0)) /\
    (length params <> 3%nat -> func t params = Raise ValueError).
Proof.
  intros t params. split; [|apply func_not_three].
  intros H3. destruct (length_three params H3) as (A & W & Z & ->).
  exists (map (prediction A W Z) t).
  split; [apply func_value|]. split; [apply length_map|].
  intros i Hi. now rewrite nth_map_in.
Qed.

(** X2.  The forward model cannot tell [(A, W, Z)] from [(-A, W, Z + pi)]
    nor from [(A, W, Z + 2 pi)]: [func] returns the same array, and
    therefore [lossFunction] the same loss, on any data. *)
Theorem func_sign_phase_symmetry :
  forall (t : Np.array) (A W Z : R),
    func t [- A; W; Z + PI] = func t [A; W; Z] /\
    func t [A; W; Z + 2 * PI] = func t [A; W; Z] /\
    (forall y, lossFunction t y [- A; W; Z + PI] = lossFunction t y [A; W; Z]) /\
    (forall y, lossFunction t y [A; W; Z + 2 * PI] = lossFunction t y [A; W; Z]).
Proof.
  intros t A W Z.
  assert (E1 : func t [- A; W; Z + PI] = func t [A; W; Z]).
  { rewrite !func_value. f_equal. apply map_ext. intros x. unfold prediction.
    replace (W * x + (Z + PI)) with (W * x + Z + PI) by ring.
    rewrite neg_sin. ring. }
  assert (E2 : func t [A; W; Z + 2 * PI] = func t [A; W; Z]).
  { rewrite !func_value. f_equal. apply map_ext. intros x. unfold prediction.
    replace (W * x + (Z + 2 * PI)) with (W * x + Z + 2 * PI) by ring.
    now rewrite sin_plus, sin_2PI, cos_2PI, Rmult_0_r, Rmult_1_r, Rplus_0_r. }
  split; [exact E1|]. split; [exact E2|].
  split; intros y; unfold lossFunction; [now rewrite E1 | now rewrite E2].
Qed.

(** X3.  [funcDeriv] returns exactly when [params] unpacks into three
    values, and then returns three rows, each as long as [t]; otherwise it
    raises [ValueError].  It returns exactly when [func] does. *)
Theorem funcDeriv_returns_three_rows :
  forall (t params : Np.array),
    (length params = 3%nat ->
     exists dA dW dZ, funcDeriv t params = Ok [dA; dW; dZ] /\
       length dA = length t /\ length dW = length t /\ length dZ = length t) /\
    (length params <> 3%nat -> funcDeriv t params = Raise ValueError) /\
    ((exists d, funcDeriv t params = Ok d) <-> (exists y, func t params = Ok y)).
Proof.
  intros t params. split; [|split].
  - intros H3. destruct (length_three params H3) as (A & W & Z & ->).
    destruct (deriv_row_lengths t A W Z) as (L1 & L2 & L3).
    do 3 eexists. split; [reflexivity|]. auto.
  - apply funcDeriv_not_three.
  - destruct (Nat.eq_dec (length params) 3) as [H3|H3].
    + destruct (length_three params H3) as (A & W & Z & ->).
      split; intros _; eexists; reflexivity.
    + rewrite (func_not_three t params H3), (funcDeriv_not_three t params H3).
      split; intros [x Hx]; discriminate.
Qed.

(** Derivatives: a pointwise equal function and an equal limit. *)
Lemma derivable_pt_lim_ext (f h : R -> R) x l l' :
  (forall z, f z = h z) -> l = l' ->
  derivable_pt_lim f x l -> derivable_pt_lim h x l'.
Proof.
  intros E <- H eps Heps. destruct (H eps Heps) as [delta Hd].
  exists delta. intros k Hk Hlt. rewrite <- !E. now apply Hd.
Qed.

Lemma deriv_affine a b x : derivable_pt_lim (fun z => a * z + b) x a.
Proof.
  apply (derivable_pt_lim_ext (mult_real_fct a id + fct_cte b)%F _ x (a * 1 + 0));
    [reflexivity | ring |].
  apply derivable_pt_lim_plus;
    [apply derivable_pt_lim_scal, derivable_pt_lim_id | apply derivable_pt_lim_const].
Qed.

(** [z |-> c * sin (a z + b)] and its derivative. *)
Lemma deriv_scaled_sin c a b x :
  derivable_pt_lim (fun z => c * sin (a * z + b)) x (c * a * cos (a * x + b)).
Proof.
  apply (derivable_pt_lim_ext
           (mult_real_fct c (comp sin (fun z => a * z + b))) _ x
           (c * (cos (a * x + b) * a))); [reflexivity | ring |].
  apply derivable_pt_lim_scal.
  apply (derivable_pt_lim_comp (fun z => a * z + b) sin);
    [apply deriv_affine | apply derivable_pt_lim_sin].
Qed.

(** The three partial derivatives of one prediction [A sin (W t + Z)]. *)
Lemma prediction_deriv_A A W Z ti :
  derivable_pt_lim (fun a => prediction a W Z ti) A (sin (W * ti + Z)).
Proof.
  apply (derivable_pt_lim_ext (fun a => sin (W * ti + Z) * a + 0) _ A
           (sin (W * ti + Z))); [|reflexivity | apply deriv_affine].
  intros a. unfold prediction. ring.
Qed.

Lemma prediction_deriv_W A W Z ti :
  derivable_pt_lim (fun w => prediction A w Z ti) W (A * ti * cos (W * ti + Z)).
Proof.
  apply (derivable_pt_lim_ext (fun w => A * sin (ti * w + Z)) _ W
           (A * ti * cos (ti * W + Z))); [| |apply deriv_scaled_sin].
  - intros w. unfold prediction. now rewrite (Rmult_comm w ti).
  - now rewrite (Rmult_comm ti W).
Qed.

Lemma prediction_deriv_Z A W Z ti :
  derivable_pt_lim (fun z => prediction A W z ti) Z (A * cos (W * ti + Z)).
Proof.
  apply (derivable_pt_lim_ext (fun z => A * sin (1 * z + W * ti)) _ Z
           (A * 1 * cos (1 * Z + W * ti))); [| |apply deriv_scaled_sin].
  - intros z. unfold prediction. f_equal. f_equal. ring.
  - rewrite Rmult_1_r. f_equal. f_equal. ring.
Qed.

Lemma model_at_value t i A W Z :
  (i < length t)%nat -> model_at t i [A; W; Z] = prediction A W Z (nth i t 0).
Proof.
  intros Hi. unfold model_at. rewrite func_value. cbn [value_or].
  now apply nth_map_in.
Qed.

(** X4.  The rows of [funcDeriv] are the partial derivatives of [func]:
    at every sample [i], row 1 is the derivative of the prediction with
    respect to [A], row 2 with respect to [W], row 3 with respect to [Z]. *)
Theorem funcDeriv_is_derivative_of_func :
  forall (t : Np.array) (A W Z : R) (i : nat),
    (i < length t)%nat ->
    exists dA dW dZ,
      funcDeriv t [A; W; Z] = Ok [dA; dW; dZ] /\
      derivable_pt_lim (fun a => model_at t i [a; W; Z]) A (nth i dA 0) /\
      derivable_pt_lim (fun w => model_at t i [A; w; Z]) W (nth i dW 0) /\
      derivable_pt_lim (fun z => model_at t i [A; W; z]) Z (nth i dZ 0).
Proof.
  intros t A W Z i Hi. do 3 eexists. split; [reflexivity|].
  rewrite (dA_nth t A W Z i Hi), (dW_nth t A W Z i Hi), (dZ_nth t A W Z i Hi).
  cbn [D_spec]. split; [|split].
  - apply (derivable_pt_lim_ext (fun a => prediction a W Z (nth i t 0)) _ A
             (sin (W * nth i t 0 + Z)));
      [|reflexivity | apply prediction_deriv_A].
    intros a. now rewrite model_at_value.
  - apply (derivable_pt_lim_ext (fun w => prediction A w Z (nth i t 0)) _ W
             (A * nth i t 0 * cos (W * nth i t 0 + Z)));
      [|reflexivity | apply prediction_deriv_W].
    intros w. now rewrite model_at_value.
  - apply (derivable_pt_lim_ext (fun z => prediction A W z (nth i t 0)) _ Z
             (A * cos (W * nth i t 0 + Z)));
      [|reflexivity | apply prediction_deriv_Z].
    intros z. now rewrite model_at_value.
Qed.

Lemma funcDeriv_is_derivative_of_func_witness :
  (1 < length [0; 1; 2])%nat /\
  exists dA dW dZ,
    funcDeriv [0; 1; 2] [3; 2; 1] = Ok [dA; dW; dZ] /\
    derivable_pt_lim (fun a => model_at [0; 1; 2] 1 [a; 2; 1]) 3 (nth 1 dA 0) /\
    derivable_pt_lim (fun w => model_at [0; 1; 2] 1 [3; w; 1]) 2 (nth 1 dW 0) /\
    derivable_pt_lim (fun z => model_at [0; 1; 2] 1 [3; 2; z]) 1 (nth 1 dZ 0).
Proof.
  assert (H : (1 < length [0; 1; 2])%nat) by (simpl; lia).
  split; [exact H|].
  exact (funcDeriv_is_derivative_of_func [0; 1; 2] 3 2 1 1%nat H).
Defined.

(** ** Shapes: when the loss and its gradient return *)

Lemma sub_returns_iff a b :
  (exists d, Np.sub a b = Ok d) <->
  (length a = length b \/ length a = 1%nat \/ length b = 1%nat).
Proof.
  unfold Np.sub, Np.broadcast2.
  destruct (Nat.eqb_spec (length a) (length b)) as [E|E].
  { split; [auto | eauto]. }
  destruct (Nat.eqb_spec (length a) 1) as [E1|E1].
  { split; [auto | eauto]. }
  destruct (Nat.eqb_spec (length b) 1) as [E2|E2].
  { split; [auto | eauto]. }
  split; [intros [d H]; discriminate | intros [H|[H|H]]; contradiction].
Qed.

Lemma sub_raises_ValueError a b e : Np.sub a b = Raise e -> e = ValueError.
Proof.
  unfold Np.sub, Np.broadcast2.
  destruct (Nat.eqb (length a) (length b)); [discriminate|].
  destruct (Nat.eqb (length a) 1); [discriminate|].
  destruct (Nat.eqb (length b) 1); [discriminate|].
  intros H. now injection H.
Qed.

Lemma sub_length a b d :
  Np.sub a b = Ok d ->
  length d = if Nat.eqb (length a) 1 then length b else length a.
Proof.
  unfold Np.sub, Np.broadcast2.
  destruct (Nat.eqb_spec (length a) (length b)) as [E|E].
  { intros H. injection H as <-. rewrite zipWith_length by exact E.
    destruct (Nat.eqb (length a) 1); auto. }
  destruct (Nat.eqb_spec (length a) 1) as [E1|E1].
  { intros H. injection H as <-. apply length_map. }
  destruct (Nat.eqb_spec (length b) 1) as [E2|E2]; [|discriminate].
  intros H. injection H as <-. apply length_map.
Qed.

Lemma lossFunction_unfold t y A W Z :
  lossFunction t y [A; W; Z] =
  (diff <-? Np.sub y (map (prediction A W Z) t) ;;
   Ok (Np.sum (Np.square diff) / INR (length y))).
Proof. unfold lossFunction. now rewrite func_value. Qed.

Lemma dot_mv_deriv_rows t A W Z e :
  Np.dot_mv
    [Np.sin (Np.sadd (Np.smul W t) Z);
     Np.zipWith Rmult (Np.smul A t) (Np.cos (Np.sadd (Np.smul W t) Z));
     Np.smul A (Np.cos (Np.sadd (Np.smul W t) Z))] e =
  if Nat.eqb (length t) (length e)
  then Ok (map (fun row => Np.dotp row e)
             [Np.sin (Np.sadd (Np.smul W t) Z);
              Np.zipWith Rmult (Np.smul A t) (Np.cos (Np.sadd (Np.smul W t) Z));
              Np.smul A (Np.cos (Np.sadd (Np.smul W t) Z))])
  else Raise ValueError.
Proof.
  destruct (deriv_row_lengths t A W Z) as (L1 & L2 & L3).
  unfold Np.dot_mv. cbn [forallb]. rewrite L1, L2, L3.
  now destruct (Nat.eqb (length t) (length e)).
Qed.

Lemma lossFunctionGradient_unfold t y A W Z :
  lossFunctionGradient t y [A; W; Z] =
  (error <-? Np.sub y (map (prediction A W Z) t) ;;
   if Nat.eqb (length t) (length error)
   then Ok (Np.smul (-2)
              (map (fun row => Np.dotp row error)
                 [Np.sin (Np.sadd (Np.smul W t) Z);
                  Np.zipWith Rmult (Np.smul A t) (Np.cos (Np.sadd (Np.smul W t) Z));
                  Np.smul A (Np.cos (Np.sadd (Np.smul W t) Z))]))
   else Raise ValueError).
Proof.
  unfold lossFunctionGradient. rewrite func_value. cbn [rbind].
  destruct (Np.sub y (map (prediction A W Z) t)) as [error|e]; [|reflexivity].
  cbn [rbind funcDeriv]. rewrite dot_mv_deriv_rows.
  now destruct (Nat.eqb (length t) (length error)).
Qed.

(** X5.  [lossFunction] returns a number exactly when [params] has three
    entries and the shapes of [y_data] and of the predictions can be
    broadcast: equal lengths, or one of the two arrays of length one.  In
    every other case it raises, and what it raises is [ValueError]. *)
Theorem lossFunction_returns_iff :
  forall (t_data y_data params : Np.array),
    ((exists v, lossFunction t_data y_data params = Ok v) <->
     (length params = 3%nat /\
      (length y_data = length t_data \/ length y_data = 1%nat \/
       length t_data = 1%nat))) /\
    (forall e, lossFunction t_data y_data params = Raise e -> e = ValueError).
Proof.
  intros t y params.
  destruct (Nat.eq_dec (length params) 3) as [H3|H3].
  - destruct (length_three params H3) as (A & W & Z & ->).
    rewrite lossFunction_unfold.
    pose proof (sub_returns_iff y (map (prediction A W Z) t)) as Hs.
    rewrite length_map in Hs.
    destruct (Np.sub y (map (prediction A W Z) t)) as [d|e0] eqn:E; cbn [rbind].
    + split; [|discriminate]. split; [|eauto].
      intros _. split; [reflexivity|]. apply Hs. eauto.
    + split.
      * split; [intros [v Hv]; discriminate|].
        intros [_ Hc]. apply Hs in Hc. destruct Hc as [d Hd]. discriminate.
      * intros e He. injection He as <-. now apply (sub_raises_ValueError _ _ _ E).
  - unfold lossFunction. rewrite (func_not_three t params H3). cbn [rbind].
    split.
    + split; [intros [v Hv]; discriminate | intros [Hc _]; contradiction].
    + intros e He. now injection He.
Qed.

(** X6.  [lossFunctionGradient] returns exactly when [params] has three
    entries and [y_data] is as long as [t_data] or has length one; it then
    returns three numbers.  Otherwise it raises [ValueError].  In
    particular a single [t] with several [y] gives a loss but no gradient:
    the residuals are broadcast to the length of [y_data], and the product
    with the 3 by 1 matrix of derivatives is refused. *)
Theorem lossFunctionGradient_returns_iff :
  forall (t_data y_data params : Np.array),
    ((exists g, lossFunctionGradient t_data y_data params = Ok g) <->
     (length params = 3%nat /\
      (length y_data = length t_data \/ length y_data = 1%nat))) /\
    (forall g, lossFunctionGradient t_data y_data params = Ok g ->
       length g = 3%nat) /\
    (forall e, lossFunctionGradient t_data y_data params = Raise e ->
       e = ValueError) /\
    (length params = 3%nat -> length t_data = 1%nat ->
     length y_data <> 1%nat ->
     (exists v, lossFunction t_data y_data params = Ok v) /\
     lossFunctionGradient t_data y_data params = Raise ValueError).
Proof.
  intros t y params.
  destruct (Nat.eq_dec (length params) 3) as [H3|H3].
  - destruct (length_three params H3) as (A & W & Z & ->).
    rewrite lossFunctionGradient_unfold, lossFunction_unfold.
    pose proof (sub_returns_iff y (map (prediction A W Z) t)) as Hs.
    rewrite length_map in Hs.
    destruct (Np.sub y (map (prediction A W Z) t)) as [d|e0] eqn:E; cbn [rbind].
    + pose proof (sub_length _ _ _ E) as Hd. rewrite length_map in Hd.
      assert (Hex : length y = length t \/ length y = 1%nat \/ length t = 1%nat)
        by (apply Hs; eauto).
      destruct (Nat.eqb_spec (length t) (length d)) as [Td|Td].
      * assert (Hy : length y = length t \/ length y = 1%nat).
        { destruct (Nat.eqb_spec (length y) 1); [auto | left; congruence]. }
        split; [split; eauto|].
        split; [intros g Hg; now injection Hg as <-|].
        split; [discriminate|].
        intros _ T1 Y1. exfalso. destruct Hy; congruence.
      * assert (Hy : ~ (length y = length t \/ length y = 1%nat)).
        { intros [Hc|Hc]; apply Td; revert Hd.
          - destruct (Nat.eqb_spec (length y) 1); congruence.
          - destruct (Nat.eqb_spec (length y) 1); congruence. }
        split; [split; [intros [g Hg]; discriminate | intros [_ Hc]; contradiction]|].
        split; [discriminate|].
        split; [intros e He; now injection He|].
        intros _ _ _. split; [eauto | reflexivity].
    + assert (Hn : ~ (length y = length t \/ length y = 1%nat \/ length t = 1%nat)).
      { intros Hc. apply Hs in Hc. destruct Hc as [d Hd]. discriminate. }
      split; [split; [intros [g Hg]; discriminate
                     | intros [_ [Hc|Hc]]; exfalso; apply Hn; auto]|].
      split; [discriminate|].
      split; [intros e He; injection He as <-;
              now apply (sub_raises_ValueError _ _ _ E)|].
      intros _ T1 _. exfalso. apply Hn; auto.
  - unfold lossFunctionGradient, lossFunction.
    rewrite (func_not_three t params H3). cbn [rbind].
    split; [split; [intros [g Hg]; discriminate | intros [Hc _]; contradiction]|].
    split; [discriminate|].
    split; [intros e He; now injection He|].
    intros Hc. contradiction.
Qed.

(** ** The loss at and around the generating parameters *)

Lemma loss_at_value t y A W Z :
  length t = length y ->
  loss_at t y [A; W; Z] =
  Sigma (length y) (fun i => (residual t y A W Z i) ^ 2) / INR (length y).
Proof.
  intros Hl. unfold loss_at. now rewrite lossFunction_value.
Qed.

Lemma loss_value_nonneg t y A W Z :
  y <> [] ->
  0 <= Sigma (length y) (fun i => (residual t y A W Z i) ^ 2) / INR (length y).
Proof.
  intros Hy.
  assert (Hn : 0 < INR (length y)).
  { apply lt_0_INR. destruct y; [contradiction | simpl; lia]. }
  apply Rmult_le_pos.
  - apply Sigma_nonneg. intros i _. apply pow2_ge_0.
  - apply Rlt_le. now apply Rinv_0_lt_compat.
Qed.

(** X7.  On noiseless data [y = func(t, p)], with at least one sample,
    the generating parameters [p] are a global minimum and a stationary
    point of the code's objective: [lossFunction] returns 0 at [p],
    [lossFunctionGradient] returns the zero vector at [p], and the loss at
    any other three parameters is at least the loss at [p]. *)
Theorem generating_params_minimise_loss :
  forall (t y : Np.array) (A W Z : R),
    func t [A; W; Z] = Ok y -> y <> [] ->
    lossFunction t y [A; W; Z] = Ok 0 /\
    lossFunctionGradient t y [A; W; Z] = Ok [0; 0; 0] /\
    forall A' W' Z', loss_at t y [A; W; Z] <= loss_at t y [A'; W'; Z'].
Proof.
  intros t y A W Z Hy Hne.
  assert (Hl : length t = length y).
  { rewrite func_value in Hy. injection Hy as <-. now rewrite length_map. }
  assert (H0 : lossFunction t y [A; W; Z] = Ok 0).
  { rewrite lossFunction_value by exact Hl. f_equal.
    rewrite Sigma_all_zero; [unfold Rdiv; ring|].
    intros i Hi. rewrite func_value in Hy. injection Hy as <-.
    unfold residual. rewrite length_map in Hi. rewrite nth_map_in by exact Hi.
    ring. }
  split; [exact H0|]. split; [now apply gradient_at_generating_params|].
  intros A' W' Z'. unfold loss_at at 1. rewrite H0. cbn [value_or].
  rewrite loss_at_value by exact Hl. now apply loss_value_nonneg.
Qed.

Lemma generating_params_minimise_loss_witness :
  func [0; 1] [3; 2; 1] = Ok (map (prediction 3 2 1) [0; 1]) /\
  map (prediction 3 2 1) [0; 1] <> [] /\
  lossFunction [0; 1] (map (prediction 3 2 1) [0; 1]) [3; 2; 1] = Ok 0 /\
  lossFunctionGradient [0; 1] (map (prediction 3 2 1) [0; 1]) [3; 2; 1]
    = Ok [0; 0; 0] /\
  forall A' W' Z',
    loss_at [0; 1] (map (prediction 3 2 1) [0; 1]) [3; 2; 1] <=
    loss_at [0; 1] (map (prediction 3 2 1) [0; 1]) [A'; W'; Z'].
Proof.
  assert (H1 : func [0; 1] [3; 2; 1] = Ok (map (prediction 3 2 1) [0; 1]))
    by apply func_value.
  assert (H2 : map (prediction 3 2 1) [0; 1] <> []) by discriminate.
  split; [exact H1|]. split; [exact H2|].
  exact (generating_params_minimise_loss [0; 1] _ 3 2 1 H1 H2).
Defined.

(** ** The gradient the code computes and the gradient of the loss *)

Lemma Sigma_scal n c f : Sigma n (fun i => c * f i) = c * Sigma n f.
Proof.
  revert f. induction n as [|n IH]; intros f.
  - unfold Sigma. simpl. ring.
  - rewrite !Sigma_S_first, IH. ring.
Qed.

Lemma deriv_Sigma n :
  forall (f : R -> nat -> R) (f' : nat -> R) x,
    (forall i, (i < n)%nat -> derivable_pt_lim (fun z => f z i) x (f' i)) ->
    derivable_pt_lim (fun z => Sigma n (f z)) x (Sigma n f').
Proof.
  induction n as [|n IH]; intros f f' x H.
  - apply (derivable_pt_lim_ext (fct_cte 0) _ x 0);
      [reflexivity | reflexivity | apply derivable_pt_lim_const].
  - apply (derivable_pt_lim_ext
             ((fun z => f z 0%nat) + (fun z => Sigma n (fun i => f z (S i))))%F
             _ x (f' 0%nat + Sigma n (fun i => f' (S i)))).
    + intros z. now rewrite Sigma_S_first.
    + now rewrite Sigma_S_first.
    + apply derivable_pt_lim_plus; [apply H; lia|].
      apply (IH (fun z i => f z (S i)) (fun i => f' (S i))).
      intros i Hi. apply H. lia.
Qed.

(** The square of a residual [c - m z], where [m] has derivative [m']. *)
Lemma deriv_sq_residual (m : R -> R) c x m' :
  derivable_pt_lim m x m' ->
  derivable_pt_lim (fun z => (c - m z) ^ 2) x (-2 * (m' * (c - m x))).
Proof.
  intros Hm.
  assert (Hr : derivable_pt_lim (fct_cte c - m)%F x (0 - m')).
  { apply derivable_pt_lim_minus; [apply derivable_pt_lim_const | exact Hm]. }
  apply (derivable_pt_lim_ext ((fct_cte c - m) * (fct_cte c - m))%F _ x
           ((0 - m') * (fct_cte c - m)%F x + (fct_cte c - m)%F x * (0 - m'))).
  - intros z. unfold mult_fct, minus_fct, fct_cte. ring.
  - unfold minus_fct, fct_cte. ring.
  - now apply derivable_pt_lim_mult.
Qed.

Lemma deriv_div_const (F : R -> R) c x l :
  derivable_pt_lim F x l -> derivable_pt_lim (fun z => F z / c) x (l / c).
Proof.
  intros H.
  apply (derivable_pt_lim_ext (mult_real_fct (/ c) F) _ x (/ c * l)).
  - intros z. unfold mult_real_fct, Rdiv. ring.
  - unfold Rdiv. ring.
  - now apply derivable_pt_lim_scal.
Qed.

(** The derivative of the loss along one parameter, from the derivative
    [d i] of each prediction along it. *)
Lemma deriv_loss (m : R -> nat -> R) (d : nat -> R) (y : Np.array) x :
  (forall i, (i < length y)%nat -> derivable_pt_lim (fun z => m z i) x (d i)) ->
  derivable_pt_lim
    (fun z => Sigma (length y) (fun i => (nth i y 0 - m z i) ^ 2) / INR (length y)) x
    (-2 * Sigma (length y) (fun i => d i * (nth i y 0 - m x i)) / INR (length y)).
Proof.
  intros H. rewrite <- Sigma_scal.
  apply deriv_div_const.
  apply (deriv_Sigma (length y) (fun z i => (nth i y 0 - m z i) ^ 2)
           (fun i => -2 * (d i * (nth i y 0 - m x i)))).
  intros i Hi.
  apply (deriv_sq_residual (fun z => m z i) (nth i y 0) x (d i)). now apply H.
Qed.

(** X8.  What [lossFunctionGradient] returns is the number of samples
    times the gradient of [lossFunction]: the loss divides the sum of
    squares by [n], the gradient code does not.  For [n] samples and
    every parameter, the partial derivative of the loss is the matching
    entry of [lossFunctionGradient] divided by [n]. *)
Theorem lossFunctionGradient_is_n_times_gradient :
  forall (t y : Np.array) (A W Z : R),
    length t = length y -> y <> [] ->
    exists gA gW gZ,
      lossFunctionGradient t y [A; W; Z] = Ok [gA; gW; gZ] /\
      derivable_pt_lim (fun a => loss_at t y [a; W; Z]) A (gA / INR (length y)) /\
      derivable_pt_lim (fun w => loss_at t y [A; w; Z]) W (gW / INR (length y)) /\
      derivable_pt_lim (fun z => loss_at t y [A; W; z]) Z (gZ / INR (length y)).
Proof.
  intros t y A W Z Hl Hne.
  rewrite lossFunctionGradient_value by exact Hl.
  unfold gradient_spec. cbn [map]. do 3 eexists. split; [reflexivity|].
  split; [|split].
  - apply (derivable_pt_lim_ext
             (fun a => Sigma (length y)
                         (fun i => (nth i y 0 - prediction a W Z (nth i t 0)) ^ 2)
                       / INR (length y)) _ A _ _
             (fun a => eq_sym (loss_at_value t y a W Z Hl)) eq_refl).
    apply (deriv_loss (fun a i => prediction a W Z (nth i t 0))
             (fun i => D_spec t A W Z 0 i) y A).
    intros i _. apply prediction_deriv_A.
  - apply (derivable_pt_lim_ext
             (fun w => Sigma (length y)
                         (fun i => (nth i y 0 - prediction A w Z (nth i t 0)) ^ 2)
                       / INR (length y)) _ W _ _
             (fun w => eq_sym (loss_at_value t y A w Z Hl)) eq_refl).
    apply (deriv_loss (fun w i => prediction A w Z (nth i t 0))
             (fun i => D_spec t A W Z 1 i) y W).
    intros i _. apply prediction_deriv_W.
  - apply (derivable_pt_lim_ext
             (fun z => Sigma (length y)
                         (fun i => (nth i y 0 - prediction A W z (nth i t 0)) ^ 2)
                       / INR (length y)) _ Z _ _
             (fun z => eq_sym (loss_at_value t y A W z Hl)) eq_refl).
    apply (deriv_loss (fun z i => prediction A W z (nth i t 0))
             (fun i => D_spec t A W Z 2 i) y Z).
    intros i _. apply prediction_deriv_Z.
Qed.

Lemma lossFunctionGradient_is_n_times_gradient_witness :
  length [0; 1] = length [5; 7] /\ [5; 7] <> [] /\
  exists gA gW gZ,
    lossFunctionGradient [0; 1] [5; 7] [1; 1; 1] = Ok [gA; gW; gZ] /\
    derivable_pt_lim (fun a => loss_at [0; 1] [5; 7] [a; 1; 1]) 1
      (gA / INR (length [5; 7])) /\
    derivable_pt_lim (fun w => loss_at [0; 1] [5; 7] [1; w; 1]) 1
      (gW / INR (length [5; 7])) /\
    derivable_pt_lim (fun z => loss_at [0; 1] [5; 7] [1; 1; z]) 1
      (gZ / INR (length [5; 7])).
Proof.
  assert (H1 : length [0; 1] = length [5; 7]) by reflexivity.
  assert (H2 : [5; 7] <> []) by discriminate.
  split; [exact H1|]. split; [exact H2|].
  exact (lossFunctionGradient_is_n_times_gradient [0; 1] [5; 7] 1 1 1 H1 H2).
Defined.

(** ** Edge and error behaviour of [newtonMethod] *)

Lemma norm_nonneg d : 0 <= Np.norm d.
Proof. unfold Np.norm. apply sqrt_pos. Qed.

Lemma iterate_S_first g k p0 :
  iterate g (S k) p0 = (p1 <-? params_new_of g p0 ;; iterate g k p1).
Proof.
  induction k as [|k IH].
  - simpl. now destruct (params_new_of g p0).
  - change (iterate g (S (S k)) p0)
      with (p <-? iterate g (S k) p0 ;; params_new_of g p).
    rewrite IH. now destruct (params_new_of g p0).
Qed.

(** X9.  A [max_iter] that is zero or negative gives an empty [range]:
    [newtonMethod] returns [params_initial] and its log is empty. *)
Theorem newtonMethod_nonpositive_max_iter :
  forall (F L : Type) (f : F) (l : L) (g : Np.array -> result Np.array)
         (params_initial : Np.array) (max_iter : Z) (tol : R),
    (max_iter <= 0)%Z ->
    newtonMethod f l g params_initial max_iter tol = ([], Ok params_initial).
Proof.
  intros F L f l g p m tol Hm. unfold newtonMethod.
  destruct (Z.to_nat m) as [|n] eqn:E; [reflexivity | lia].
Qed.

Lemma newtonMethod_nonpositive_max_iter_witness :
  (-5 <= 0)%Z /\
  newtonMethod func (lossFunction [] []) (lossFunctionGradient [] []) [1; 1; 1]
    (-5) default_tol = ([], Ok [1; 1; 1]).
Proof.
  assert (H : (-5 <= 0)%Z) by (intros E; discriminate).
  split; [exact H|].
  exact (newtonMethod_nonpositive_max_iter _ _ func (lossFunction [] [])
           (lossFunctionGradient [] []) [1; 1; 1] (-5)%Z default_tol H).
Defined.

Lemma newton_loop_nonpositive_tol g tol n :
  tol <= 0 ->
  forall p,
    breaks (fst (newton_loop g tol n p)) = 0%nat /\
    forall q, snd (newton_loop g tol n p) = Ok q ->
      iterate g n p = Ok q /\ grad_evals (fst (newton_loop g tol n p)) = n.
Proof.
  intros Htol. induction n as [|n IH]; intros p.
  - simpl. split; [reflexivity|]. intros q H. injection H as <-. auto.
  - destruct (newton_update_shape g p) as [e He|grad e Hgr Hinv|grad hinv Hgr Hinv].
    + rewrite (newton_loop_update_raises g tol n p _ e
                 (newton_update_grad_raises g p e He)).
      split; [reflexivity | discriminate].
    + rewrite (newton_loop_update_raises g tol n p _ e
                 (newton_update_inv_raises g p grad e Hgr Hinv)).
      split; [reflexivity | discriminate].
    + pose proof (newton_update_inv_ok g p grad hinv Hgr Hinv) as Hup.
      destruct (Np.sub p (step_of hinv grad)) as [p'|e] eqn:Hsub.
      * destruct (sub_after_sub _ _ _ Hsub) as [d Hd].
        assert (Hge : ~ Np.norm d < tol).
        { pose proof (norm_nonneg d). lra. }
        rewrite (newton_loop_continue g tol n p _ p' d Hup Hd Hge).
        destruct (IH p') as (Hb & Hq). cbn [fst snd].
        rewrite breaks_app, grad_evals_app, Hb. split; [reflexivity|].
        intros q Hr. destruct (Hq q Hr) as (Hit & Hg).
        rewrite iterate_S_first. unfold params_new_of at 1. rewrite Hup.
        cbn [snd rbind]. rewrite Hg. split; [exact Hit | reflexivity].
      * rewrite (newton_loop_update_raises g tol n p _ e Hup).
        split; [reflexivity | discriminate].
Qed.

(** X10.  With a tolerance that is zero or negative the convergence test
    can never succeed (a norm is not below zero): the [break] is never
    taken, and a run that returns has done all its [max_iter] turns and
    returns the last vector computed. *)
Theorem newtonMethod_nonpositive_tol_never_breaks :
  forall (F L : Type) (f : F) (l : L) (g : Np.array -> result Np.array)
         (params_initial : Np.array) (max_iter : nat) (tol : R),
    tol <= 0 ->
    breaks (fst (newtonMethod f l g params_initial (Z.of_nat max_iter) tol)) = 0%nat /\
    forall q,
      snd (newtonMethod f l g params_initial (Z.of_nat max_iter) tol) = Ok q ->
      iterate g max_iter params_initial = Ok q /\
      grad_evals (fst (newtonMethod f l g params_initial (Z.of_nat max_iter) tol))
        = max_iter.
Proof.
  intros F L f l g p n tol Htol. unfold newtonMethod. rewrite Nat2Z.id.
  now apply newton_loop_nonpositive_tol.
Qed.

Lemma newtonMethod_nonpositive_tol_never_breaks_witness :
  0 <= 0 /\
  breaks (fst (newtonMethod func (lossFunction [] []) (fun _ => Ok [2]) [0]
                 (Z.of_nat 4) 0)) = 0%nat.
Proof.
  assert (H : 0 <= 0) by apply Rle_refl.
  split; [exact H|].
  exact (proj1 (newtonMethod_nonpositive_tol_never_breaks _ _ func
                  (lossFunction [] []) (fun _ => Ok [2]) [0] 4%nat 0 H)).
Defined.

(** X11.  An exception raised by the gradient function is passed on as it
    is.  If the loop reaches turn [k] (counted from 0) and the gradient
    function raises [e] at the current parameters, [newtonMethod] raises
    [e]; by then it has called the gradient function [k + 1] times and
    inverted [k] matrices. *)
Theorem newtonMethod_propagates_gradient_error :
  forall (F L : Type) (f : F) (l : L) (g : Np.array -> result Np.array)
         (params_initial : Np.array) (max_iter : Z) (tol : R)
         (k : nat) (p : Np.array) (e : exn),
    (forall j, (j < k)%nat -> continues_at g tol params_initial j) ->
    iterate g k params_initial = Ok p ->
    g p = Raise e ->
    (Z.of_nat k < max_iter)%Z ->
    snd (newtonMethod f l g params_initial max_iter tol) = Raise e /\
    grad_evals (fst (newtonMethod f l g params_initial max_iter tol)) = S k /\
    inversions (fst (newtonMethod f l g params_initial max_iter tol)) = k.
Proof.
  intros F L f l g p0 m tol k p e Hc Hit Hg Hk. unfold newtonMethod.
  replace (Z.to_nat m) with (k + S (Z.to_nat m - S k))%nat by lia.
  destruct (newton_loop_prefix g tol k (S (Z.to_nat m - S k)) p0 Hc)
    as (pk & tr & Hit' & Hloop & Hge & Hi & Hb).
  rewrite Hit in Hit'. injection Hit' as <-.
  rewrite Hloop.
  rewrite (newton_loop_update_raises g tol _ p _ e
             (newton_update_grad_raises g p e Hg)).
  cbn [fst snd]. rewrite grad_evals_app, inversions_app, Hge, Hi. cbn.
  repeat split; lia.
Qed.

Lemma newtonMethod_propagates_gradient_error_witness :
  (forall j, (j < 0)%nat ->
     continues_at (fun _ => Raise ValueError) 1 [1; 1] j) /\
  iterate (fun _ => Raise ValueError) 0 [1; 1] = Ok [1; 1] /\
  (fun _ : Np.array => @Raise Np.array ValueError) [1; 1] = Raise ValueError /\
  (Z.of_nat 0 < 100)%Z /\
  snd (newtonMethod func (lossFunction [] []) (fun _ => Raise ValueError)
         [1; 1] 100 1) = Raise ValueError /\
  grad_evals (fst (newtonMethod func (lossFunction [] [])
                     (fun _ => Raise ValueError) [1; 1] 100 1)) = 1%nat /\
  inversions (fst (newtonMethod func (lossFunction [] [])
                     (fun _ => Raise ValueError) [1; 1] 100 1)) = 0%nat.
Proof.
  assert (H1 : forall j, (j < 0)%nat ->
             continues_at (fun _ => Raise ValueError) 1 [1; 1] j)
    by (intros j Hj; inversion Hj).
  assert (K : (Z.of_nat 0 < 100)%Z) by reflexivity.
  split; [exact H1|]. split; [reflexivity|]. split; [reflexivity|].
  split; [exact K|].
  exact (newtonMethod_propagates_gradient_error _ _ func (lossFunction [] [])
           (fun _ => Raise ValueError) [1; 1] 100%Z 1 0%nat [1; 1] ValueError
           H1 eq_refl eq_refl K).
Defined.

(** X12.  With the notebook's own gradient, an initial vector that does
    not have exactly three entries makes [newtonMethod] raise [ValueError]
    in its first turn (the unpacking in [func]), before any matrix is
    inverted, whatever the data. *)
Theorem newtonMethod_wrong_parameter_count :
  forall (t_data y_data params_initial : Np.array) (max_iter : Z) (tol : R),
    length params_initial <> 3%nat -> (0 < max_iter)%Z ->
    newtonMethod func (lossFunction t_data y_data)
      (lossFunctionGradient t_data y_data) params_initial max_iter tol =
    ([GradEval params_initial], Raise ValueError).
Proof.
  intros t y p m tol H3 Hm. unfold newtonMethod.
  destruct (Z.to_nat m) as [|n] eqn:E; [lia|].
  apply newton_loop_update_raises, newton_update_grad_raises.
  unfold lossFunctionGradient. now rewrite (func_not_three t p H3).
Qed.

Lemma newtonMethod_wrong_parameter_count_witness :
  length [1; 1] <> 3%nat /\ (0 < 100)%Z /\
  newtonMethod func (lossFunction [0; 1] [5; 7])
    (lossFunctionGradient [0; 1] [5; 7]) [1; 1] 100 default_tol =
  ([GradEval [1; 1]], Raise ValueError).
Proof.
  assert (H : length [1; 1] <> 3%nat) by (simpl; lia).
  assert (K : (0 < 100)%Z) by reflexivity.
  split; [exact H|]. split; [exact K|].
  exact (newtonMethod_wrong_parameter_count [0; 1] [5; 7] [1; 1] 100%Z
           default_tol H K).
Defined.

(** ** Invariants of the loop *)

Lemma mat_vec_length m v : length (mat_vec m v) = length m.
Proof. unfold mat_vec. apply length_map. Qed.

Lemma newton_update_keeps_length g p grad p' :
  g p = Ok grad -> length grad = length p ->
  snd (newton_update g p) = Ok p' -> length p' = length p.
Proof.
  intros Hg Hl. rewrite (newton_update_value g p grad Hg Hl). cbn [snd].
  destruct (Np.inv (outer_spec grad)) as [hinv|e] eqn:Hi; [|discriminate].
  cbn [rbind]. intros H. injection H as <-.
  apply zipWith_length.
  now rewrite mat_vec_length, (inv_length _ _ Hi), outer_spec_length.
Qed.

Lemma newton_loop_keeps_length g tol n :
  (forall p grad, g p = Ok grad -> length grad = length p) ->
  forall p q, snd (newton_loop g tol n p) = Ok q -> length q = length p.
Proof.
  intros Hg. induction n as [|n IH]; intros p q.
  - simpl. intros H. now injection H as <-.
  - destruct (newton_update_shape g p) as [e He|grad e Hgr Hinv|grad hinv Hgr Hinv].
    + rewrite (newton_loop_update_raises g tol n p _ e
                 (newton_update_grad_raises g p e He)). discriminate.
    + rewrite (newton_loop_update_raises g tol n p _ e
                 (newton_update_inv_raises g p grad e Hgr Hinv)). discriminate.
    + pose proof (newton_update_inv_ok g p grad hinv Hgr Hinv) as Hup.
      destruct (Np.sub p (step_of hinv grad)) as [p'|e] eqn:Hsub.
      * assert (Hp' : length p' = length p).
        { apply (newton_update_keeps_length g p grad p' Hgr (Hg p grad Hgr)).
          now rewrite Hup. }
        destruct (sub_after_sub _ _ _ Hsub) as [d Hd].
        destruct (Rlt_dec (Np.norm d) tol) as [Hlt|Hge].
        -- rewrite (newton_loop_break g tol n p _ p' d Hup Hd Hlt).
           cbn [snd]. intros H. now injection H as <-.
        -- rewrite (newton_loop_continue g tol n p _ p' d Hup Hd Hge).
           cbn [snd]. intros H. rewrite (IH p' q H). exact Hp'.
      * rewrite (newton_loop_update_raises g tol n p _ e Hup). discriminate.
Qed.

Lemma converges_at_first_1d_any g x gx tol :
  g [x] = Ok [gx] -> gx <> 0 -> Rabs (/ gx) < tol ->
  converges_at g tol [x] 0 [x] [x - / gx].
Proof.
  intros Hg Hgx Htol. unfold converges_at.
  split; [intros j Hj; lia|].
  split; [reflexivity|].
  split; [now apply (params_new_1d g x gx)|].
  exists [x - / gx - x]. split; [apply sub_1d|].
  rewrite norm_1d. replace (x - / gx - x) with (- / gx) by ring.
  now rewrite Rabs_Ropp.
Qed.

Lemma newton_loop_inversions g tol n :
  forall p,
    (grad_evals (fst (newton_loop g tol n p))
       <= S (inversions (fst (newton_loop g tol n p))))%nat /\
    (forall q, snd (newton_loop g tol n p) = Ok q ->
       inversions (fst (newton_loop g tol n p))
       = grad_evals (fst (newton_loop g tol n p))).
Proof.
  induction n as [|n IH]; intros p.
  - simpl. split; [cbn; lia | reflexivity].
  - destruct (newton_update_shape g p) as [e He|grad e Hgr Hinv|grad hinv Hgr Hinv].
    + rewrite (newton_loop_update_raises g tol n p _ e
                 (newton_update_grad_raises g p e He)).
      split; [cbn; lia | discriminate].
    + rewrite (newton_loop_update_raises g tol n p _ e
                 (newton_update_inv_raises g p grad e Hgr Hinv)).
      split; [cbn; lia | discriminate].
    + pose proof (newton_update_inv_ok g p grad hinv Hgr Hinv) as Hup.
      destruct (Np.sub p (step_of hinv grad)) as [p'|e] eqn:Hsub.
      * destruct (sub_after_sub _ _ _ Hsub) as [d Hd].
        destruct (Rlt_dec (Np.norm d) tol) as [Hlt|Hge].
        -- rewrite (newton_loop_break g tol n p _ p' d Hup Hd Hlt).
           split; [cbn; lia | reflexivity].
        -- rewrite (newton_loop_continue g tol n p _ p' d Hup Hd Hge).
           destruct (IH p') as (H1 & H2). cbn [fst snd].
           rewrite grad_evals_app, inversions_app. cbn.
           split; [lia|]. intros q Hq. rewrite (H2 q Hq). reflexivity.
      * rewrite (newton_loop_update_raises g tol n p _ e Hup).
        split; [cbn; lia | discriminate].
Qed.

(** X14.  Gradient evaluations and inversions go in pairs.  In every run
    the inversions are the gradient evaluations or one fewer (the run was
    cut by the gradient function raising); in a run that returns, every
    gradient evaluation was followed by an inversion. *)
Theorem newtonMethod_inversions_match_gradients :
  forall (F L : Type) (f : F) (l : L) (g : Np.array -> result Np.array)
         (params_initial : Np.array) (max_iter : Z) (tol : R),
    let run := newtonMethod f l g params_initial max_iter tol in
    (inversions (fst run) <= grad_evals (fst run))%nat /\
    (grad_evals (fst run) <= S (inversions (fst run)))%nat /\
    (forall q, snd run = Ok q -> inversions (fst run) = grad_evals (fst run)).
Proof.
  intros F L f l g p m tol run. subst run. unfold newtonMethod.
  destruct (newton_loop_inversions g tol (Z.to_nat m) p) as (H1 & H2).
  destruct (newton_loop_bounds g tol (Z.to_nat m) p) as (_ & H3 & _).
  auto.
Qed.

Lemma grad_points_app tr1 tr2 :
  grad_points (tr1 ++ tr2) = grad_points tr1 ++ grad_points tr2.
Proof. unfold grad_points. apply flat_map_app. Qed.

Lemma newton_loop_grad_points g tol n :
  forall p0 i p,
    nth_error (grad_points (fst (newton_loop g tol n p0))) i = Some p ->
    iterate g i p0 = Ok p /\ (i < n)%nat.
Proof.
  induction n as [|n IH]; intros p0 i p.
  - simpl. destruct i; discriminate.
  - assert (Hhead : forall tr r,
              newton_loop g tol (S n) p0 = (tr, r) ->
              grad_points tr = [p0] ->
              nth_error (grad_points (fst (newton_loop g tol (S n) p0))) i = Some p ->
              iterate g i p0 = Ok p /\ (i < S n)%nat).
    { intros tr r Hl Htr. rewrite Hl. cbn [fst]. rewrite Htr.
      destruct i as [|[|i]]; simpl; try discriminate.
      intros H. injection H as <-. split; [reflexivity | lia]. }
    destruct (newton_update_shape g p0) as [e He|grad e Hgr Hinv|grad hinv Hgr Hinv].
    + apply (Hhead _ _
               (newton_loop_update_raises g tol n p0 _ e
                  (newton_update_grad_raises g p0 e He)) eq_refl).
    + apply (Hhead _ _
               (newton_loop_update_raises g tol n p0 _ e
                  (newton_update_inv_raises g p0 grad e Hgr Hinv)) eq_refl).
    + pose proof (newton_update_inv_ok g p0 grad hinv Hgr Hinv) as Hup.
      destruct (Np.sub p0 (step_of hinv grad)) as [p'|e] eqn:Hsub.
      * destruct (sub_after_sub _ _ _ Hsub) as [d Hd].
        destruct (Rlt_dec (Np.norm d) tol) as [Hlt|Hge].
        -- apply (Hhead _ _ (newton_loop_break g tol n p0 _ p' d Hup Hd Hlt) eq_refl).
        -- rewrite (newton_loop_continue g tol n p0 _ p' d Hup Hd Hge).
           cbn [fst]. rewrite grad_points_app. cbn [grad_points flat_map app].
           destruct i as [|i]; cbn [nth_error].
           ++ intros H. injection H as <-. split; [reflexivity | lia].
           ++ intros H. destruct (IH p' i p H) as (Hit & Hi).
              split; [|lia]. rewrite iterate_S_first.
              unfold params_new_of. rewrite Hup. cbn [snd rbind]. exact Hit.
      * apply (Hhead _ _ (newton_loop_update_raises g tol n p0 _ e Hup) eq_refl).
Qed.

(** X15.  The gradient is only ever evaluated at the vectors the loop
    itself produced, in order: the [i]-th evaluation in the log (counted
    from 0) is at the [i]-th iterate, the first one at [params_initial],
    and there is none beyond [max_iter]. *)
Theorem newtonMethod_evaluates_gradient_at_iterates :
  forall (F L : Type) (f : F) (l : L) (g : Np.array -> result Np.array)
         (params_initial : Np.array) (max_iter : Z) (tol : R)
         (i : nat) (p : Np.array),
    nth_error
      (grad_points (fst (newtonMethod f l g params_initial max_iter tol))) i
      = Some p ->
    iterate g i params_initial = Ok p /\ (Z.of_nat i < max_iter)%Z.
Proof.
  intros F L f l g p0 m tol i p H. unfold newtonMethod in H.
  destruct (newton_loop_grad_points g tol (Z.to_nat m) p0 i p H) as (Hit & Hi).
  split; [exact Hit | lia].
Qed.

Lemma newtonMethod_evaluates_gradient_at_iterates_witness :
  nth_error
    (grad_points (fst (newtonMethod func (lossFunction [] [])
                         (fun _ => Ok [0; 0; 0]) [1; 1; 1] 100 1))) 0
    = Some [1; 1; 1] /\
  iterate (fun _ => Ok [0; 0; 0]) 0 [1; 1; 1] = Ok [1; 1; 1] /\
  (Z.of_nat 0 < 100)%Z.
Proof.
  assert (H : nth_error
                (grad_points (fst (newtonMethod func (lossFunction [] [])
                                     (fun _ => Ok [0; 0; 0]) [1; 1; 1] 100 1))) 0
              = Some [1; 1; 1]).
  { unfold newtonMethod.
    replace (Z.to_nat 100) with (S 99) by reflexivity.
    now rewrite (newton_loop_zero_gradient (fun _ => Ok [0; 0; 0]) 1 99 [1; 1; 1]). }
  split; [exact H|].
  exact (newtonMethod_evaluates_gradient_at_iterates _ _ func (lossFunction [] [])
           (fun _ => Ok [0; 0; 0]) [1; 1; 1] 100%Z 1 0%nat [1; 1; 1] H).
Defined.

(** ** What the loop can raise *)

Lemma is_square_outer grad : Np.is_square (outer_spec grad) = true.
Proof.
  unfold Np.is_square, outer_spec. apply forallb_forall. intros row Hin.
  apply in_map_iff in Hin. destruct Hin as (gi & <- & _).
  rewrite !length_map. apply Nat.eqb_refl.
Qed.

Lemma inv_outer_raises grad e :
  Np.inv (outer_of grad) = Raise e -> e = LinAlgError SingularMatrix.
Proof.
  rewrite outer_of_spec. unfold Np.inv. rewrite is_square_outer.
  destruct (Req_dec_T (Np.det (outer_spec grad)) 0); [|discriminate].
  intros H. now injection H.
Qed.

Lemma newton_loop_raises g tol n :
  forall p e,
    snd (newton_loop g tol n p) = Raise e ->
    ((exists p', g p' = Raise e) \/ e = LinAlgError SingularMatrix \/
     e = ValueError) /\
    ((forall p' grad, g p' = Ok grad -> length grad = length p') ->
     (exists p', g p' = Raise e) \/ e = LinAlgError SingularMatrix).
Proof.
  induction n as [|n IH]; intros p e.
  - simpl. discriminate.
  - destruct (newton_update_shape g p) as [e0 He|grad e0 Hgr Hinv|grad hinv Hgr Hinv].
    + rewrite (newton_loop_update_raises g tol n p _ e0
                 (newton_update_grad_raises g p e0 He)).
      cbn [snd]. intros H. injection H as <-. split; [|intros _]; eauto.
    + rewrite (newton_loop_update_raises g tol n p _ e0
                 (newton_update_inv_raises g p grad e0 Hgr Hinv)).
      cbn [snd]. intros H. injection H as <-.
      rewrite (inv_outer_raises grad e0 Hinv). split; [|intros _]; auto.
    + pose proof (newton_update_inv_ok g p grad hinv Hgr Hinv) as Hup.
      destruct (Np.sub p (step_of hinv grad)) as [p'|e0] eqn:Hsub.
      * destruct (sub_after_sub _ _ _ Hsub) as [d Hd].
        destruct (Rlt_dec (Np.norm d) tol) as [Hlt|Hge].
        -- rewrite (newton_loop_break g tol n p _ p' d Hup Hd Hlt). discriminate.
        -- rewrite (newton_loop_continue g tol n p _ p' d Hup Hd Hge).
           cbn [snd]. apply IH.
      * rewrite (newton_loop_update_raises g tol n p _ e0 Hup).
        cbn [snd]. intros H. injection H as <-.
        rewrite (sub_raises_ValueError _ _ _ Hsub). split; [auto|].
        intros Hlen. exfalso.
        pose proof (newton_update_value g p grad Hgr (Hlen p grad Hgr)) as Hv.
        rewrite Hup, <- outer_of_spec, Hinv in Hv. cbn [rbind] in Hv.
        injection Hv as Hv. discriminate.
Qed.

(** X16.  What [newtonMethod] raises.  An exception that comes out of
    [newtonMethod] is one the gradient function raised, or the
    singular-matrix error of the inversion, or a [ValueError] from
    subtracting a step whose shape does not fit the parameters; the matrix
    handed to the inversion is always square.  When the gradient always
    has as many entries as the parameter vector, only the first two are
    left. *)
Theorem newtonMethod_raises_only :
  forall (F L : Type) (f : F) (l : L) (g : Np.array -> result Np.array)
         (params_initial : Np.array) (max_iter : Z) (tol : R) (e : exn),
    snd (newtonMethod f l g params_initial max_iter tol) = Raise e ->
    ((exists p, g p = Raise e) \/ e = LinAlgError SingularMatrix \/
     e = ValueError) /\
    ((forall p grad, g p = Ok grad -> length grad = length p) ->
     (exists p, g p = Raise e) \/ e = LinAlgError SingularMatrix).
Proof.
  intros F L f l g p m tol e H. unfold newtonMethod in H.
  exact (newton_loop_raises g tol (Z.to_nat m) p e H).
Qed.

Lemma newtonMethod_raises_only_witness :
  snd (newtonMethod func (lossFunction [] []) (fun _ => Ok [0; 0; 0])
         [1; 1; 1] 100 1) = Raise (LinAlgError SingularMatrix) /\
  ((exists p, (fun _ : Np.array => Ok [0; 0; 0]) p
              = Raise (LinAlgError SingularMatrix)) \/
   LinAlgError SingularMatrix = LinAlgError SingularMatrix \/
   LinAlgError SingularMatrix = ValueError).
Proof.
  assert (H : snd (newtonMethod func (lossFunction [] []) (fun _ => Ok [0; 0; 0])
                     [1; 1; 1] 100 1) = Raise (LinAlgError SingularMatrix)).
  { unfold newtonMethod.
    replace (Z.to_nat 100) with (S 99) by reflexivity.
    now rewrite (newton_loop_zero_gradient (fun _ => Ok [0; 0; 0]) 1 99 [1; 1; 1]). }
  split; [exact H|].
  exact (proj1 (newtonMethod_raises_only _ _ func (lossFunction [] [])
                  (fun _ => Ok [0; 0; 0]) [1; 1; 1] 100%Z 1 _ H)).
Defined.

(** ** One parameter *)

(** X17.  With a single parameter [x] and gradient [gx] there, the
    update moves [x] by the reciprocal of the gradient, to [x - 1 / gx];
    where the gradient is zero the inversion raises. *)
Theorem newton_update_one_parameter :
  forall (g : Np.array -> result Np.array) (x gx : R),
    g [x] = Ok [gx] ->
    (gx <> 0 -> params_new_of g [x] = Ok [x - / gx]) /\
    (gx = 0 -> params_new_of g [x] = Raise (LinAlgError SingularMatrix)).
Proof.
  intros g x gx Hg. split.
  - now apply params_new_1d.
  - intros ->. unfold params_new_of.
    rewrite (newton_update_inv_raises g [x] [0] (LinAlgError SingularMatrix) Hg);
      [reflexivity|].
    rewrite outer_of_spec. unfold Np.inv. rewrite is_square_outer.
    destruct (Req_dec_T (Np.det (outer_spec [0])) 0) as [_|N]; [reflexivity|].
    exfalso. apply N. cbn. ring.
Qed.

Lemma newton_update_one_parameter_witness :
  (fun _ : Np.array => Ok [2]) [0] = Ok [2] /\
  (2 <> 0 -> params_new_of (fun _ => Ok [2]) [0] = Ok [0 - / 2]) /\
  (2 = 0 -> params_new_of (fun _ => Ok [2]) [0] = Raise (LinAlgError SingularMatrix)).
Proof.
  split; [reflexivity|].
  exact (newton_update_one_parameter (fun _ => Ok [2]) 0 2 eq_refl).
Defined.

(** ** The data *)

Lemma linspace_nth a b n i :
  (i < n)%nat ->
  nth i (linspace a b n) 0 = a + INR i * ((b - a) / INR (n - 1)).
Proof.
  intros Hi. unfold linspace.
  rewrite (nth_indep _ 0 ((fun i => a + INR i * ((b - a) / INR (n - 1))) 0%nat))
    by (now rewrite length_map, length_seq).
  rewrite (map_nth (fun i => a + INR i * ((b - a) / INR (n - 1)))).
  now rewrite seq_nth.
Qed.

(** X18.  The grid [np.linspace(a, b, n)] with [n >= 2] has [n] points,
    starts at [a], ends at [b], and neighbours are [(b - a) / (n - 1)]
    apart; the notebook's [t_data] is the case [a = 0], [b = 3 pi],
    [n = 100]. *)
Theorem linspace_grid :
  forall (a b : R) (n : nat),
    (2 <= n)%nat ->
    length (linspace a b n) = n /\
    nth 0 (linspace a b n) 0 = a /\
    nth (n - 1) (linspace a b n) 0 = b /\
    forall i, (S i < n)%nat ->
      nth (S i) (linspace a b n) 0 - nth i (linspace a b n) 0
      = (b - a) / INR (n - 1).
Proof.
  intros a b n Hn.
  assert (Hpos : INR (n - 1) <> 0).
  { apply not_0_INR. lia. }
  split; [unfold linspace; now rewrite length_map, length_seq|].
  split; [rewrite linspace_nth by lia; simpl; ring|].
  split; [rewrite linspace_nth by lia; now field|].
  intros i Hi. rewrite !linspace_nth by lia. rewrite S_INR. ring.
Qed.

Lemma linspace_grid_witness :
  (2 <= 100)%nat /\
  length notebook_t_data = 100%nat /\
  nth 0 notebook_t_data 0 = 0 /\
  nth (100 - 1) notebook_t_data 0 = 3 * PI.
Proof.
  assert (H : (2 <= 100)%nat) by lia.
  split; [exact H|].
  destruct (linspace_grid 0 (3 * PI) 100 H) as (H1 & H2 & H3 & _).
  unfold notebook_t_data. split; [exact H1|]. split; [exact H2 | exact H3].
Defined.

(** X19.  With a single observed value the loss is not a mean.  When
    [y_data] holds one number it is stretched over all predictions, and
    the sum of the squared residuals is divided by [len(y_data) = 1]:
    [lossFunction] returns the sum over all samples of [t_data], however
    many they are. *)
Theorem lossFunction_single_observation :
  forall (t_data : Np.array) (y0 A W Z : R),
    lossFunction t_data [y0] [A; W; Z] =
    Ok (Sigma (length t_data)
          (fun i => (y0 - prediction A W Z (nth i t_data 0)) ^ 2)).
Proof.
  intros t y0 A W Z. rewrite lossFunction_unfold.
  assert (Hsub : Np.sub [y0] (map (prediction A W Z) t) =
                 Ok (map (fun x => y0 - prediction A W Z x) t)).
  { unfold Np.sub, Np.broadcast2. rewrite length_map.
    destruct t as [|t0 [|t1 t]]; try reflexivity.
    cbn [length Nat.eqb hd]. now rewrite map_map. }
  rewrite Hsub. cbn [rbind length]. f_equal.
  unfold Np.square. rewrite !map_map.
  replace (INR 1) with 1 by reflexivity. unfold Rdiv. rewrite Rinv_1, Rmult_1_r.
  rewrite sum_as_Sigma, length_map. apply Sigma_ext. intros i Hi.
  now rewrite (nth_map_in (fun x => (y0 - prediction A W Z x) ^ 2)).
Qed.

(** * The loop for any inversion routine *)

Section AnyInversion.

Variable inv : inversion.

Lemma newton_update_with_grad_raises g p e :
  g p = Raise e -> newton_update_with inv g p = ([GradEval p], Raise e).
Proof. intros Hg. unfold newton_update_with. simpl. rewrite Hg. reflexivity. Qed.

Lemma newton_update_with_inv_raises g p grad e :
  g p = Ok grad -> inv (outer_of grad) = Raise e ->
  newton_update_with inv g p =
  ([GradEval p; Inversion (outer_of grad)], Raise e).
Proof.
  intros Hg Hi. unfold newton_update_with. simpl. rewrite Hg. simpl.
  fold (outer_of grad). rewrite Hi. reflexivity.
Qed.

Lemma newton_update_with_inv_ok g p grad hinv :
  g p = Ok grad -> inv (outer_of grad) = Ok hinv ->
  newton_update_with inv g p =
  ([GradEval p; Inversion (outer_of grad)], Np.sub p (step_of hinv grad)).
Proof.
  intros Hg Hi. unfold newton_update_with. simpl. rewrite Hg. simpl.
  fold (outer_of grad). rewrite Hi. reflexivity.
Qed.

(** A turn that computed [p'] did one gradient evaluation and one
    inversion. *)
Lemma newton_update_with_returned g p p' :
  params_new_of_with inv g p = Ok p' ->
  exists tr, newton_update_with inv g p = (tr, Ok p') /\
             grad_evals tr = 1%nat /\ inversions tr = 1%nat /\ breaks tr = 0%nat.
Proof.
  unfold params_new_of_with. intros H.
  destruct (g p) as [grad|e] eqn:Hg.
  - destruct (inv (outer_of grad)) as [hinv|e] eqn:Hi.
    + rewrite (newton_update_with_inv_ok g p grad hinv Hg Hi) in *.
      cbn [snd] in H. rewrite H. eexists. split; [reflexivity|]. now cbn.
    + rewrite (newton_update_with_inv_raises g p grad e Hg Hi) in H. discriminate.
  - rewrite (newton_update_with_grad_raises g p e Hg) in H. discriminate.
Qed.

Lemma newton_loop_with_break g tol k p tr p' d :
  newton_update_with inv g p = (tr, Ok p') -> Np.sub p' p = Ok d ->
  Np.norm d < tol ->
  newton_loop_with inv g tol (S k) p = (tr ++ [Break], Ok p).
Proof.
  intros H Hs Hn. simpl. rewrite H. simpl. rewrite Hs. simpl.
  destruct (Rlt_dec (Np.norm d) tol) as [_|Hc]; [reflexivity | contradiction].
Qed.

Lemma newton_loop_with_continue g tol k p tr p' d :
  newton_update_with inv g p = (tr, Ok p') -> Np.sub p' p = Ok d ->
  ~ Np.norm d < tol ->
  newton_loop_with inv g tol (S k) p =
  (tr ++ fst (newton_loop_with inv g tol k p'),
   snd (newton_loop_with inv g tol k p')).
Proof.
  intros H Hs Hn. simpl. rewrite H. simpl. rewrite Hs. simpl.
  destruct (Rlt_dec (Np.norm d) tol) as [Hc|_]; [contradiction | reflexivity].
Qed.

Lemma newton_loop_with_prefix g tol k :
  forall n p0,
    (forall j, (j < k)%nat -> continues_at_with inv g tol p0 j) ->
    exists pk tr,
      iterate_with inv g k p0 = Ok pk /\
      newton_loop_with inv g tol (k + n) p0 =
        (tr ++ fst (newton_loop_with inv g tol n pk),
         snd (newton_loop_with inv g tol n pk)) /\
      grad_evals tr = k /\ inversions tr = k /\ breaks tr = 0%nat.
Proof.
  induction k as [|k IH]; intros n p0 Hc.
  - exists p0, []. simpl. repeat split; auto.
    now destruct (newton_loop_with inv g tol n p0).
  - destruct (IH (S n) p0) as (pk & tr & Hit & Hloop & Hg & Hi & Hb).
    { intros j Hj. apply Hc. lia. }
    destruct (Hc k (Nat.lt_succ_diag_r k)) as (p & p' & d & Hp & Hnew & Hd & Hn).
    rewrite Hit in Hp. injection Hp as <-.
    destruct (newton_update_with_returned g pk p' Hnew)
      as (tr1 & Hup & Hg1 & Hi1 & Hb1).
    exists p', (tr ++ tr1).
    split; [simpl; rewrite Hit; exact Hnew|].
    split.
    + replace (S k + n)%nat with (k + S n)%nat by lia. rewrite Hloop.
      rewrite (newton_loop_with_continue g tol n pk tr1 p' d Hup Hd Hn).
      simpl fst. simpl snd. now rewrite <- !app_assoc.
    + rewrite grad_evals_app, inversions_app, breaks_app, Hg, Hi, Hb, Hg1, Hi1, Hb1.
      repeat split; lia.
Qed.


Lemma newton_loop_with_exhausted g tol p0 n :
  (forall j, (j < n)%nat -> continues_at_with inv g tol p0 j) ->
  exists q,
    iterate_with inv g n p0 = Ok q /\
    snd (newton_loop_with inv g tol n p0) = Ok q /\
    breaks (fst (newton_loop_with inv g tol n p0)) = 0%nat /\
    grad_evals (fst (newton_loop_with inv g tol n p0)) = n.
Proof.
  intros Hc.
  destruct (newton_loop_with_prefix g tol n 0 p0 Hc)
    as (q & tr & Hit & Hloop & Hg & Hi & Hb).
  rewrite Nat.add_0_r in Hloop. exists q. rewrite Hloop. simpl.
  rewrite app_nil_r. auto.
Qed.

(** The value of one update, entry by entry. *)
Lemma newton_update_with_value g p grad :
  keeps_shape inv -> g p = Ok grad -> length grad = length p ->
  newton_update_with inv g p =
  ([GradEval p; Inversion (outer_spec grad)],
   hinv <-? inv (outer_spec grad) ;;
   Ok (Np.zipWith Rminus p (mat_vec hinv grad))).
Proof.
  intros Hshape Hg Hl. rewrite <- outer_of_spec.
  destruct (inv (outer_of grad)) as [hinv|e] eqn:Hi.
  - rewrite (newton_update_with_inv_ok g p grad hinv Hg Hi). cbn [rbind]. f_equal.
    pose proof (Hshape _ _ Hi) as Hh.
    rewrite outer_of_spec, outer_spec_length in Hh.
    destruct grad as [|x a].
    + destruct p; [|discriminate]. destruct hinv; [reflexivity | discriminate].
    + rewrite step_of_mat_vec. apply sub_same_length.
      rewrite mat_vec_length. congruence.
  - now rewrite (newton_update_with_inv_raises g p grad e Hg Hi).
Qed.

Lemma newton_loop_with_keeps_length g tol n :
  keeps_shape inv ->
  (forall p grad, g p = Ok grad -> length grad = length p) ->
  forall p q, snd (newton_loop_with inv g tol n p) = Ok q -> length q = length p.
Proof.
  intros Hshape Hg. induction n as [|n IH]; intros p q.
  - simpl. intros H. now injection H as <-.
  - destruct (g p) as [grad|e] eqn:Hgr.
    + pose proof (newton_update_with_value g p grad Hshape Hgr (Hg p grad Hgr)) as Hv.
      destruct (inv (outer_spec grad)) as [hinv|e] eqn:Hi; cbn [rbind] in Hv.
      * assert (Hp' : length (Np.zipWith Rminus p (mat_vec hinv grad)) = length p).
        { apply zipWith_length. rewrite mat_vec_length, (Hshape _ _ Hi).
          rewrite outer_spec_length. symmetry. now apply Hg. }
        destruct (sub_returns_iff (Np.zipWith Rminus p (mat_vec hinv grad)) p)
          as [_ Hsub].
        destruct (Hsub (or_introl Hp')) as [d Hd].
        destruct (Rlt_dec (Np.norm d) tol) as [Hlt|Hge].
        -- rewrite (newton_loop_with_break g tol n p _ _ d Hv Hd Hlt).
           cbn [snd]. intros H. now injection H as <-.
        -- rewrite (newton_loop_with_continue g tol n p _ _ d Hv Hd Hge).
           cbn [snd]. intros H. rewrite (IH _ q H). exact Hp'.
      * simpl. rewrite Hv. discriminate.
    + simpl. rewrite (newton_update_with_grad_raises g p e Hgr). discriminate.
Qed.

End AnyInversion.

(** [newtonMethod] is the loop with the exact inversion. *)
Lemma newton_loop_with_exact g tol n p :
  newton_loop_with Np.inv g tol n p = newton_loop g tol n p.
Proof.
  revert p. induction n as [|n IH]; intros p; [reflexivity|].
  cbn [newton_loop_with newton_loop].
  change (newton_update_with Np.inv g p) with (newton_update g p).
  destruct (newton_update g p) as [tr [p'|e]]; [|reflexivity].
  cbn [bind fst snd]. unfold lift. destruct (Np.sub p' p) as [d|e]; [|reflexivity].
  cbn [bind fst snd]. destruct (Rlt_dec (Np.norm d) tol); [reflexivity|].
  now rewrite IH.
Qed.

Lemma newtonMethod_with_exact (F L : Type) (f : F) (l : L) g p max_iter tol :
  newtonMethod_with Np.inv f l g p max_iter tol = newtonMethod f l g p max_iter tol.
Proof. apply newton_loop_with_exact. Qed.

(** ** An inversion that returns on three parameters *)

Lemma add_diag_length eps m : length (add_diag eps m) = length m.
Proof. unfold add_diag. now rewrite length_map, length_seq. Qed.

Lemma inv_regularized_keeps_shape eps : keeps_shape (inv_regularized eps).
Proof.
  intros m h H. unfold inv_regularized in H.
  rewrite (inv_length _ _ H). apply add_diag_length.
Qed.

Lemma sq3_nonneg a b c : 0 <= sq3 a b c.
Proof. unfold sq3. nra. Qed.

Lemma det_regularized_outer_3 eps a b c :
  Np.det (add_diag eps (outer_spec [a; b; c])) = eps * eps * (eps + sq3 a b c).
Proof. unfold sq3. cbn. ring. Qed.

(** [(g g^T + eps I)^-1 g = g / (eps + |g|^2)]. *)
Lemma inv_regularized_outer_3 eps a b c :
  0 < eps ->
  exists hinv,
    inv_regularized eps (outer_spec [a; b; c]) = Ok hinv /\
    mat_vec hinv [a; b; c] =
      [a / (eps + sq3 a b c); b / (eps + sq3 a b c); c / (eps + sq3 a b c)].
Proof.
  intros Heps. pose proof (sq3_nonneg a b c) as Hs.
  unfold inv_regularized, Np.inv.
  assert (Hsq : Np.is_square (add_diag eps (outer_spec [a; b; c])) = true)
    by reflexivity.
  rewrite Hsq, det_regularized_outer_3.
  destruct (Req_dec_T (eps * eps * (eps + sq3 a b c)) 0) as [E|N].
  { exfalso. assert (0 < eps * eps * (eps + sq3 a b c)); [|lra].
    apply Rmult_lt_0_compat; [apply Rmult_lt_0_compat|]; lra. }
  eexists. split; [reflexivity|].
  unfold sq3 in *. cbn.
  repeat (apply f_equal2; [field; split; lra|]). reflexivity.
Qed.

Lemma params_new_regularized_3 eps g x y z a b c :
  0 < eps -> g [x; y; z] = Ok [a; b; c] ->
  params_new_of_with (inv_regularized eps) g [x; y; z] =
  Ok [x - a / (eps + sq3 a b c); y - b / (eps + sq3 a b c);
      z - c / (eps + sq3 a b c)].
Proof.
  intros Heps Hg. unfold params_new_of_with.
  rewrite (newton_update_with_value (inv_regularized eps) g [x; y; z] [a; b; c]
             (inv_regularized_keeps_shape eps) Hg eq_refl).
  destruct (inv_regularized_outer_3 eps a b c Heps) as (hinv & Hi & Hmv).
  cbn [snd]. rewrite Hi. cbn [rbind]. now rewrite Hmv.
Qed.

(** The norm the convergence test sees after such a turn. *)
Lemma step_norm_regularized_3 eps x y z a b c :
  0 < eps ->
  exists d,
    Np.sub [x - a / (eps + sq3 a b c); y - b / (eps + sq3 a b c);
            z - c / (eps + sq3 a b c)] [x; y; z] = Ok d /\
    Np.norm d = sqrt (sq3 a b c / ((eps + sq3 a b c) * (eps + sq3 a b c))).
Proof.
  intros Heps. pose proof (sq3_nonneg a b c) as Hs.
  eexists. split; [reflexivity|].
  unfold Np.norm. f_equal. unfold sq3 in *. cbn. field. lra.
Qed.



Lemma sqrt_not_below X tol :
  0 <= X -> 0 <= tol -> tol * tol <= X -> ~ sqrt X < tol.
Proof.
  intros HX Ht Hle Hlt. pose proof (sqrt_pos X) as Hp.
  pose proof (sqrt_sqrt X HX) as Hs. nra.
Qed.

(** A gradient that is the same three numbers everywhere. *)
Lemma iterate_regularized_const_3 a b c x y z k :
  iterate_with (inv_regularized 1) (fun _ => Ok [a; b; c]) k [x; y; z] =
  Ok [x - INR k * (a / (1 + sq3 a b c)); y - INR k * (b / (1 + sq3 a b c));
      z - INR k * (c / (1 + sq3 a b c))].
Proof.
  induction k as [|k IH].
  - simpl. f_equal. repeat (apply f_equal2; [ring|]). reflexivity.
  - cbn [iterate_with]. rewrite IH. cbn [rbind].
    rewrite (params_new_regularized_3 1 (fun _ => Ok [a; b; c]) _ _ _ a b c
               Rlt_0_1 eq_refl).
    rewrite S_INR. f_equal. repeat (apply f_equal2; [ring|]). reflexivity.
Qed.

Lemma continues_at_regularized_const_3 a b c x y z tol j :
  0 <= tol ->
  tol * tol <= sq3 a b c / ((1 + sq3 a b c) * (1 + sq3 a b c)) ->
  continues_at_with (inv_regularized 1) (fun _ => Ok [a; b; c]) tol [x; y; z] j.
Proof.
  intros Ht Hle. pose proof (sq3_nonneg a b c) as Hs.
  destruct (step_norm_regularized_3 1
              (x - INR j * (a / (1 + sq3 a b c)))
              (y - INR j * (b / (1 + sq3 a b c)))
              (z - INR j * (c / (1 + sq3 a b c))) a b c Rlt_0_1)
    as (d & Hd & Hn).
  unfold continues_at_with. do 2 eexists. exists d.
  split; [apply iterate_regularized_const_3|].
  split; [apply (params_new_regularized_3 1 (fun _ => Ok [a; b; c]));
          [exact Rlt_0_1 | reflexivity]|].
  split; [exact Hd|]. rewrite Hn.
  apply sqrt_not_below; [|exact Ht | exact Hle].
  apply Rmult_le_pos; [exact Hs|]. apply Rlt_le, Rinv_0_lt_compat. nra.
Qed.

(** The notebook's own gradient: with the regularised inversion every
    turn on three parameters returns. *)
Lemma gradient_three_entries t y A W Z :
  length t = length y ->
  exists a b c, lossFunctionGradient t y [A; W; Z] = Ok [a; b; c].
Proof.
  intros Hl. rewrite (lossFunctionGradient_value t y A W Z Hl).
  unfold gradient_spec. cbn [map]. eauto.
Qed.

Lemma iterate_regularized_fitter t y k :
  length t = length y ->
  forall A W Z, exists A' W' Z',
    iterate_with (inv_regularized 1) (lossFunctionGradient t y) k [A; W; Z]
    = Ok [A'; W'; Z'].
Proof.
  intros Hl. induction k as [|k IH]; intros A W Z.
  - simpl. eauto.
  - destruct (IH A W Z) as (A' & W' & Z' & Hit).
    destruct (gradient_three_entries t y A' W' Z' Hl) as (a & b & c & Hg).
    cbn [iterate_with]. rewrite Hit. cbn [rbind].
    rewrite (params_new_regularized_3 1 _ _ _ _ a b c Rlt_0_1 Hg). eauto.
Qed.

Lemma continues_at_regularized_fitter t y tol j A W Z :
  length t = length y -> tol <= 0 ->
  continues_at_with (inv_regularized 1) (lossFunctionGradient t y) tol [A; W; Z] j.
Proof.
  intros Hl Htol.
  destruct (iterate_regularized_fitter t y j Hl A W Z) as (A' & W' & Z' & Hit).
  destruct (gradient_three_entries t y A' W' Z' Hl) as (a & b & c & Hg).
  destruct (step_norm_regularized_3 1 A' W' Z' a b c Rlt_0_1) as (d & Hd & Hn).
  unfold continues_at_with. do 2 eexists. exists d.
  split; [exact Hit|].
  split; [apply (params_new_regularized_3 1 _ _ _ _ a b c Rlt_0_1 Hg)|].
  split; [exact Hd|]. pose proof (norm_nonneg d). lra.
Qed.

(** The notebook's data. *)
Lemma notebook_y_data_value :
  notebook_y_data = map (prediction 3 2 (PI / 6)) notebook_t_data.
Proof.
  unfold notebook_y_data, Np.smul, Np.sin, Np.sadd. now rewrite !map_map.
Qed.

Lemma notebook_lengths : length notebook_t_data = length notebook_y_data.
Proof. rewrite notebook_y_data_value. now rewrite length_map. Qed.





(** * The loop on three parameters: the claims *)




(** C3.  Whatever the inversion routine returns: when [max_iter] turns
    are done and the convergence test failed in each of them,
    [newtonMethod] returns normally, and what it returns is the vector
    computed on the last, [max_iter]-th turn; nothing is raised and the
    [break] is never taken. *)
Theorem newtonMethod_with_exhausted_returns_last :
  forall (inv : inversion) (F L : Type) (f : F) (l : L)
         (g : Np.array -> result Np.array)
         (params_initial : Np.array) (max_iter : nat) (tol : R),
    (forall j, (j < max_iter)%nat ->
       continues_at_with inv g tol params_initial j) ->
    exists q,
      iterate_with inv g max_iter params_initial = Ok q /\
      snd (newtonMethod_with inv f l g params_initial (Z.of_nat max_iter) tol)
        = Ok q /\
      breaks (fst (newtonMethod_with inv f l g params_initial
                     (Z.of_nat max_iter) tol)) = 0%nat /\
      grad_evals (fst (newtonMethod_with inv f l g params_initial
                         (Z.of_nat max_iter) tol)) = max_iter.
Proof.
  intros inv F L f l g p0 n tol Hc. unfold newtonMethod_with. rewrite Nat2Z.id.
  now apply newton_loop_with_exhausted.
Qed.

Lemma default_tol_small :
  0 <= default_tol /\
  default_tol * default_tol <= sq3 1 2 3 / ((1 + sq3 1 2 3) * (1 + sq3 1 2 3)).
Proof.
  unfold default_tol, sq3.
  replace (1 / 10 ^ 6) with (/ 1000000) by (simpl; field).
  split; [lra|].
  replace ((1 * 1 + 2 * 2 + 3 * 3) /
           ((1 + (1 * 1 + 2 * 2 + 3 * 3)) * (1 + (1 * 1 + 2 * 2 + 3 * 3))))
    with (14 / 225) by field.
  lra.
Qed.

Lemma newtonMethod_with_exhausted_returns_last_witness :
  ((forall j, (j < 3)%nat ->
      continues_at_with (inv_regularized 1) (fun _ => Ok [1; 2; 3])
        default_tol [1; 1; 1] j) /\
   exists q,
     iterate_with (inv_regularized 1) (fun _ => Ok [1; 2; 3]) 3 [1; 1; 1] = Ok q /\
     snd (newtonMethod_with (inv_regularized 1) func (lossFunction [] [])
            (fun _ => Ok [1; 2; 3]) [1; 1; 1] (Z.of_nat 3) default_tol) = Ok q /\
     breaks (fst (newtonMethod_with (inv_regularized 1) func (lossFunction [] [])
                    (fun _ => Ok [1; 2; 3]) [1; 1; 1] (Z.of_nat 3) default_tol))
       = 0%nat /\
     grad_evals (fst (newtonMethod_with (inv_regularized 1) func (lossFunction [] [])
                        (fun _ => Ok [1; 2; 3]) [1; 1; 1] (Z.of_nat 3) default_tol))
       = 3%nat) /\
  ((forall j, (j < 100)%nat ->
      continues_at_with (inv_regularized 1)
        (lossFunctionGradient notebook_t_data notebook_y_data) 0 [1; 1; 1] j) /\
   exists q,
     iterate_with (inv_regularized 1)
       (lossFunctionGradient notebook_t_data notebook_y_data) 100 [1; 1; 1] = Ok q /\
     snd (newtonMethod_with (inv_regularized 1) func
            (lossFunction notebook_t_data notebook_y_data)
            (lossFunctionGradient notebook_t_data notebook_y_data)
            [1; 1; 1] (Z.of_nat 100) 0) = Ok q /\
     breaks (fst (newtonMethod_with (inv_regularized 1) func
                    (lossFunction notebook_t_data notebook_y_data)
                    (lossFunctionGradient notebook_t_data notebook_y_data)
                    [1; 1; 1] (Z.of_nat 100) 0)) = 0%nat /\
     grad_evals (fst (newtonMethod_with (inv_regularized 1) func
                        (lossFunction notebook_t_data notebook_y_data)
                        (lossFunctionGradient notebook_t_data notebook_y_data)
                        [1; 1; 1] (Z.of_nat 100) 0)) = 100%nat).
Proof.
  assert (H1 : forall j, (j < 3)%nat ->
             continues_at_with (inv_regularized 1) (fun _ => Ok [1; 2; 3])
               default_tol [1; 1; 1] j).
  { intros j _. destruct default_tol_small as (Ht & Hle).
    now apply continues_at_regularized_const_3. }
  assert (H2 : forall j, (j < 100)%nat ->
             continues_at_with (inv_regularized 1)
               (lossFunctionGradient notebook_t_data notebook_y_data) 0 [1; 1; 1] j).
  { intros j _. apply continues_at_regularized_fitter;
      [exact notebook_lengths | apply Rle_refl]. }
  split; (split; [assumption|]).
  - exact (newtonMethod_with_exhausted_returns_last (inv_regularized 1) _ _ func
             (lossFunction [] []) (fun _ => Ok [1; 2; 3]) [1; 1; 1] 3%nat
             default_tol H1).
  - exact (newtonMethod_with_exhausted_returns_last (inv_regularized 1) _ _ func
             (lossFunction notebook_t_data notebook_y_data)
             (lossFunctionGradient notebook_t_data notebook_y_data) [1; 1; 1]
             100%nat 0 H2).
Defined.



(** X13.  The number of parameters is kept, whatever the inversion
    routine returns (as long as it returns a matrix of the size it was
    given).  When the gradient function returns, at every vector, a
    gradient with as many entries as the vector, any vector
    [newtonMethod] returns has as many entries as [params_initial]. *)
Theorem newtonMethod_with_keeps_parameter_count :
  forall (inv : inversion) (F L : Type) (f : F) (l : L)
         (g : Np.array -> result Np.array)
         (params_initial : Np.array) (max_iter : Z) (tol : R) (q : Np.array),
    keeps_shape inv ->
    (forall p grad, g p = Ok grad -> length grad = length p) ->
    snd (newtonMethod_with inv f l g params_initial max_iter tol) = Ok q ->
    length q = length params_initial.
Proof.
  intros inv F L f l g p0 m tol q Hshape Hg Hq. unfold newtonMethod_with in Hq.
  exact (newton_loop_with_keeps_length inv g tol (Z.to_nat m) Hshape Hg p0 q Hq).
Qed.

Lemma lossFunctionGradient_three t y p grad :
  lossFunctionGradient t y p = Ok grad -> length grad = length p.
Proof.
  intros H. destruct (Nat.eq_dec (length p) 3) as [H3|H3].
  - destruct (length_three p H3) as (A & W & Z & ->).
    rewrite lossFunctionGradient_unfold in H.
    destruct (Np.sub y (map (prediction A W Z) t)) as [e|e]; [|discriminate].
    cbn [rbind] in H.
    destruct (Nat.eqb (length t) (length e)); [|discriminate].
    now injection H as <-.
  - unfold lossFunctionGradient in H. rewrite (func_not_three t p H3) in H.
    discriminate.
Qed.

(** Three turns with the gradient [[1, 2, 3]] everywhere and the default
    tolerance, and three turns of the notebook's own call: the vector
    returned is the third iterate, an updated vector, and it has three
    entries. *)
Lemma newtonMethod_with_keeps_parameter_count_witness :
  (keeps_shape (inv_regularized 1) /\
   snd (newtonMethod_with (inv_regularized 1) func (lossFunction [] [])
          (fun _ => Ok [1; 2; 3]) [1; 1; 1] (Z.of_nat 3) default_tol)
     = Ok [1 - INR 3 * (1 / (1 + sq3 1 2 3)); 1 - INR 3 * (2 / (1 + sq3 1 2 3));
           1 - INR 3 * (3 / (1 + sq3 1 2 3))] /\
   length [1 - INR 3 * (1 / (1 + sq3 1 2 3)); 1 - INR 3 * (2 / (1 + sq3 1 2 3));
           1 - INR 3 * (3 / (1 + sq3 1 2 3))] = length [1; 1; 1]) /\
  exists q,
    (forall p grad,
       lossFunctionGradient notebook_t_data notebook_y_data p = Ok grad ->
       length grad = length p) /\
    snd (newtonMethod_with (inv_regularized 1) func
           (lossFunction notebook_t_data notebook_y_data)
           (lossFunctionGradient notebook_t_data notebook_y_data)
           [1; 1; 1] (Z.of_nat 3) 0) = Ok q /\
    iterate_with (inv_regularized 1)
      (lossFunctionGradient notebook_t_data notebook_y_data) 3 [1; 1; 1] = Ok q /\
    length q = length [1; 1; 1].
Proof.
  split.
  - assert (Hc : forall j, (j < 3)%nat ->
               continues_at_with (inv_regularized 1) (fun _ => Ok [1; 2; 3])
                 default_tol [1; 1; 1] j).
    { intros j _. destruct default_tol_small as (Ht & Hle).
      now apply continues_at_regularized_const_3. }
    destruct (newton_loop_with_exhausted (inv_regularized 1)
                (fun _ => Ok [1; 2; 3]) default_tol [1; 1; 1] 3%nat Hc)
      as (q & Hit & Hrun & _).
    rewrite iterate_regularized_const_3 in Hit. injection Hit as <-.
    split; [apply inv_regularized_keeps_shape|].
    split; [exact Hrun | reflexivity].
  - assert (Hc : forall j, (j < 3)%nat ->
               continues_at_with (inv_regularized 1)
                 (lossFunctionGradient notebook_t_data notebook_y_data) 0
                 [1; 1; 1] j).
    { intros j _. apply continues_at_regularized_fitter;
        [exact notebook_lengths | apply Rle_refl]. }
    destruct (newton_loop_with_exhausted (inv_regularized 1)
                (lossFunctionGradient notebook_t_data notebook_y_data) 0 [1; 1; 1]
                3%nat Hc) as (q & Hit & Hrun & _).
    assert (Hq : snd (newtonMethod_with (inv_regularized 1) func
                        (lossFunction notebook_t_data notebook_y_data)
                        (lossFunctionGradient notebook_t_data notebook_y_data)
                        [1; 1; 1] (Z.of_nat 3) 0) = Ok q) by exact Hrun.
    exists q.
    split; [apply lossFunctionGradient_three|].
    split; [exact Hq|]. split; [exact Hit|].
    exact (newtonMethod_with_keeps_parameter_count (inv_regularized 1) _ _ func
             (lossFunction notebook_t_data notebook_y_data)
             (lossFunctionGradient notebook_t_data notebook_y_data)
             [1; 1; 1] (Z.of_nat 3) 0 q (inv_regularized_keeps_shape 1)
             (lossFunctionGradient_three notebook_t_data notebook_y_data) Hq).
Defined.
